(** * A MACD trading system: signal generation, back-test hooks, optimiser
    arguments and the trading bot

    Shallow embedding of [strategy.py], [backtest.py] and the [TradingBot] of
    [alpaca_trader.py].

    - IEEE doubles are idealised as exact rationals; not-a-number is [None].
      The statements speak of which values are numbers, of comparisons and of
      what is written where; none of them depends on how a double rounds.
    - A pandas [DataFrame] is an index (row labels) and a finite map from
      column names to columns; frames live in a heap of mutable objects so
      that [df.copy()] and the writes that follow it are visible as such.
    - Python exceptions are an error monad. *)

From Stdlib Require Import ZArith QArith Qround Qabs Lia.
From stdpp Require Import gmap strings list fin_maps sorting.

Close Scope Q_scope.
Open Scope Z_scope.

#[local] Set Warnings "-clear-no-such-hyp".

(** ** Floating-point values *)

Definition float : Type := option Q.

Definition NaN : float := None.
Definition of_Q (q : Q) : float := Some (Qred q).
Definition of_Z (z : Z) : float := Some (inject_Z z).

Definition isna (a : float) : bool :=
  match a with None => true | Some _ => false end.

Definition defined (x : float) : Prop := isna x = false.

Definition float_lift2 (f : Q → Q → Q) (a b : float) : float :=
  match a, b with
  | Some x, Some y => Some (Qred (f x y))
  | _, _ => None
  end.

Definition fadd : float → float → float := float_lift2 Qplus.
Definition fsub : float → float → float := float_lift2 Qminus.
Definition fmul : float → float → float := float_lift2 Qmult.
Definition fdiv : float → float → float := float_lift2 Qdiv.

(** Comparisons with a not-a-number operand are false, as in IEEE 754. *)
Definition fle (a b : float) : bool :=
  match a, b with
  | Some x, Some y => Qle_bool x y
  | _, _ => false
  end.

Definition flt (a b : float) : bool :=
  match a, b with
  | Some x, Some y => negb (Qle_bool y x)
  | _, _ => false
  end.

Definition fge (a b : float) : bool := fle b a.
Definition fgt (a b : float) : bool := flt b a.

Definition feq (a b : float) : bool :=
  match a, b with
  | Some x, Some y => Qeq_bool x y
  | _, _ => false
  end.

(** ** Exceptions *)

Inductive exn :=
| KeyError (key : string)
| ValueError (msg : string)
| IndexError
| OverflowError
| TA_BAD_PARAM
| TA_NOT_DOUBLE.

Inductive result (A : Type) :=
| Ok (a : A)
| Raise (e : exn).
Arguments Ok {A} a.
Arguments Raise {A} e.

#[export] Instance result_ret : MRet result := λ A a, Ok a.
#[export] Instance result_bind : MBind result := λ A B f m,
  match m with
  | Ok a => f a
  | Raise e => Raise e
  end.
#[export] Instance result_fmap : FMap result := λ A B f m,
  match m with
  | Ok a => Ok (f a)
  | Raise e => Raise e
  end.

Definition is_Ok {A} (m : result A) : Prop := ∃ a, m = Ok a.

(** ** Data frames and the heap *)

Inductive column :=
| FloatCol (xs : list float)
| IntCol (xs : list Z).

Definition col_length (c : column) : nat :=
  match c with
  | FloatCol xs => length xs
  | IntCol xs => length xs
  end.

Record Series := mkSeries {
  s_index : list Z;
  s_values : column
}.

Record DataFrame := mkDataFrame {
  df_index : list Z;
  df_columns : gmap string column
}.

(** [df[key]] *)
Definition getitem (df : DataFrame) (key : string) : result Series :=
  match df_columns df !! key with
  | Some c => Ok (mkSeries (df_index df) c)
  | None => Raise (KeyError key)
  end.

(** [df[key] = col], for a column that already has the frame's index. *)
Definition setitem (df : DataFrame) (key : string) (c : column) : DataFrame :=
  mkDataFrame (df_index df) (<[key := c]> (df_columns df)).

(** [pd.Series(values, index=index)]: the lengths must agree. *)
Definition pd_Series (values : list float) (idx : list Z) : result Series :=
  if decide (length values = length idx)
  then Ok (mkSeries idx (FloatCol values))
  else Raise (ValueError "Length of values does not match length of index").

(** [col.loc[label] = v]: a write by label reaches every row that carries
    the label. *)
Definition loc_set (idx : list Z) (label : Z) (v : Z) (col : list Z) : list Z :=
  zip_with (λ l x, if decide (l = label) then v else x) idx col.

Definition loc := nat.
Abbreviation heap := (gmap loc DataFrame).

(** [df.copy()]: a new object with the same contents. *)
Definition copy (d : DataFrame) (h : heap) : loc * heap :=
  let r := fresh (dom h) in (r, <[r := d]> h).

(** ** strategy.py: [MACDStrategy] *)

Record MACDStrategy := mkMACDStrategy {
  fast_period : Z;
  slow_period : Z;
  signal_period : Z;
  position : Z;               (* 0: flat, 1: long, -1: short *)
  last_signal : option Z
}.

Definition set_position (self : MACDStrategy) (p : Z) : MACDStrategy :=
  mkMACDStrategy (fast_period self) (slow_period self) (signal_period self)
                 p (last_signal self).

(** [MACDStrategy.__init__] *)
Definition __init__ (fast slow signal : Z) : result MACDStrategy :=
  Ok (mkMACDStrategy fast slow signal 0 None).

Section Strategy.
(** The indicator library is a collaborator of the strategy:
    [talib.MACD(values, fastperiod, slowperiod, signalperiod)]. *)
Variable talib_MACD :
  list float → Z → Z → Z → result (list float * list float * list float).

(** [MACDStrategy.calculate_macd] *)
Definition calculate_macd (self : MACDStrategy) (prices : Series)
  : result (Series * Series * Series) :=
  match s_values prices with
  | IntCol _ => Raise TA_NOT_DOUBLE
  | FloatCol values =>
      '(macd_line, signal_line, histogram) ←
        talib_MACD values (fast_period self) (slow_period self)
                   (signal_period self);
      m ← pd_Series macd_line (s_index prices);
      s ← pd_Series signal_line (s_index prices);
      h ← pd_Series histogram (s_index prices);
      Ok (m, s, h)
  end.

(** One pass of the loop body of [generate_signals] at row [i]; the state
    is the [Signal] column, the [Position] column and [self.position]. *)
Definition signal_step (idx : list Z) (macd sig : list float)
    (st : list Z * list Z * Z) (i : nat) : list Z * list Z * Z :=
  let '(Signal, Position, pos) := st in
  let current_macd := macd !!! i in
  let current_signal := sig !!! i in
  let prev_macd := macd !!! (i - 1)%nat in
  let prev_signal := sig !!! (i - 1)%nat in
  let label := idx !!! i in
  if isna current_macd || isna current_signal
     || isna prev_macd || isna prev_signal
  then st
  else if fle prev_macd prev_signal && fgt current_macd current_signal
  then (loc_set idx label 1 Signal, loc_set idx label 1 Position, 1)
  else if fge prev_macd prev_signal && flt current_macd current_signal
  then (loc_set idx label (-1) Signal, loc_set idx label (-1) Position, -1)
  else (Signal, loc_set idx label pos Position, pos).

(** [for i in range(1, len(result))] *)
Definition signal_loop (idx : list Z) (macd sig : list float) (pos : Z)
  : list Z * list Z * Z :=
  let n := length idx in
  foldl (signal_step idx macd sig)
        (replicate n 0, replicate n 0, pos)
        (seq 1 (n - 1)).

Definition float_values (s : Series) : list float :=
  match s_values s with
  | FloatCol xs => xs
  | IntCol xs => of_Z <$> xs
  end.

(** [MACDStrategy.generate_signals]: the argument and the value returned
    are references into the heap; the strategy object is threaded. *)
Definition generate_signals (self : MACDStrategy) (df : loc) (h : heap)
  : result (loc * MACDStrategy * heap) :=
  match h !! df with
  | None => Raise (KeyError "df")
  | Some d =>
      let '(result, h) := copy d h in
      prices ← getitem d "Close";
      '(macd_line, signal_line, histogram) ← calculate_macd self prices;
      let r := setitem d "MACD" (s_values macd_line) in
      let r := setitem r "MACD_Signal" (s_values signal_line) in
      let r := setitem r "MACD_Histogram" (s_values histogram) in
      let '(Signal, Position, pos) :=
        signal_loop (df_index r) (float_values macd_line)
                    (float_values signal_line) (position self) in
      let r := setitem r "Signal" (IntCol Signal) in
      let r := setitem r "Position" (IntCol Position) in
      Ok (result, set_position self pos, <[result := r]> h)
  end.
End Strategy.

(** ** The indicator library

    [talib] is a third-party package; its [MACD] is embedded here after the
    TA-Lib routines it wraps ([TA_MACD], [TA_INT_MACD], [TA_INT_EMA] and the
    Python wrapper's conversion of the periods to C integers and its
    not-a-number padding).  The arithmetic is exact: the statements below
    that say which values are numbers ask for prices of bounded magnitude,
    where no sum of the indicator leaves the range of a double. *)
Module talib.

(** [PER_TO_K(per)] is [2 / (per + 1)]. *)
Definition PER_TO_K (per : Z) : float := of_Q (2 # Z.to_pos (per + 1)).

Definition fsum (xs : list float) : float := foldl fadd (of_Z 0) xs.

(** The recurrence [prevMA = ((inReal[today++] - prevMA) * k) + prevMA]. *)
Fixpoint ema_run (k prevMA : float) (inReal : list float) : list float :=
  match inReal with
  | [] => []
  | x :: rest =>
      let prevMA := fadd (fmul (fsub x prevMA) k) prevMA in
      prevMA :: ema_run k prevMA rest
  end.

(** [TA_INT_EMA(startIdx, endIdx = len - 1, inReal, period, k)]: the seed
    is the simple average of the [period] values that end at [startIdx];
    the result is the output from [startIdx] on. *)
Definition INT_EMA (startIdx : nat) (inReal : list float) (period : nat)
    (k : float) : list float :=
  let lookbackTotal := (period - 1)%nat in
  let startIdx := Nat.max startIdx lookbackTotal in
  if decide (length inReal ≤ startIdx)%nat then []
  else
    let today := (startIdx - lookbackTotal)%nat in
    let prevMA :=
      fdiv (fsum (take period (drop today inReal)))
           (of_Z (Z.of_nat period)) in
    prevMA :: ema_run k prevMA (drop (S startIdx) inReal).

(** [TA_MACD_Lookback] *)
Definition MACD_Lookback (fast slow signal : Z) : nat :=
  let slow := Z.max slow fast in
  (Z.to_nat (slow - 1) + Z.to_nat (signal - 1))%nat.

(** [TA_INT_MACD(0, len - 1, inReal, fast, slow, signal)] *)
Definition INT_MACD (inReal : list float) (fast slow signal : Z)
  : list float * list float * list float :=
  let '(fast, slow) := if slow <? fast then (slow, fast) else (fast, slow) in
  let k1 := PER_TO_K slow in
  let k2 := PER_TO_K fast in
  let lookbackSignal := Z.to_nat (signal - 1) in
  let lookbackTotal := (lookbackSignal + Z.to_nat (slow - 1))%nat in
  if decide (length inReal ≤ lookbackTotal)%nat then ([], [], [])
  else
    let tempInteger := (lookbackTotal - lookbackSignal)%nat in
    let slowEMA := INT_EMA tempInteger inReal (Z.to_nat slow) k1 in
    let fastEMA := INT_EMA tempInteger inReal (Z.to_nat fast) k2 in
    let diff := zip_with fsub fastEMA slowEMA in
    let outMACD := drop lookbackSignal diff in
    let outMACDSignal :=
      INT_EMA 0 diff (Z.to_nat signal) (PER_TO_K signal) in
    let outMACDHist := zip_with fsub outMACD outMACDSignal in
    (outMACD, outMACDSignal, outMACDHist).

(** The wrapper starts at the first value that is a number. *)
Fixpoint check_begidx1 (real : list float) : nat :=
  match real with
  | [] => 0
  | x :: rest =>
      if isna x then
        match rest with [] => 0%nat | _ => S (check_begidx1 rest) end
      else 0%nat
  end.

(** [make_double_array(length, lookback)] followed by the values written
    from position [lookback] on. *)
Definition pad (len lookback : nat) (out : list float) : list float :=
  take len (replicate lookback NaN ++ out).

Definition period_ok (lo per : Z) : bool := (lo <=? per) && (per <=? 100000).

(** A period equal to [TA_INTEGER_DEFAULT] stands for the default of its
    parameter, in [TA_MACD] and in [TA_MACD_Lookback] alike. *)
Definition TA_INTEGER_DEFAULT : Z := -2147483648.

Definition opt_period (default per : Z) : Z :=
  if per =? TA_INTEGER_DEFAULT then default else per.

(** The periods are declared [int]: the wrapper refuses a Python integer
    that does not fit one. *)
Definition c_int (z : Z) : bool := (-2147483648 <=? z) && (z <=? 2147483647).

(** The wrapper and [TA_MACD] once the periods are C integers with the
    defaults filled in: the range check of [TA_MACD], the first value that is
    a number, the three lines and their padding. *)
Definition MACD_periods (real : list float)
    (fastperiod slowperiod signalperiod : Z)
  : result (list float * list float * list float) :=
  let len := length real in
  let begidx := check_begidx1 real in
  let lookback :=
    (begidx + MACD_Lookback fastperiod slowperiod signalperiod)%nat in
  if period_ok 2 fastperiod && period_ok 2 slowperiod
     && period_ok 1 signalperiod
  then
    let '(m, s, h) :=
      INT_MACD (drop begidx real) fastperiod slowperiod signalperiod in
    Ok (pad len lookback m, pad len lookback s, pad len lookback h)
  else Raise TA_BAD_PARAM.

(** [talib.MACD(real, fastperiod, slowperiod, signalperiod)] *)
Definition MACD (real : list float) (fastperiod slowperiod signalperiod : Z)
  : result (list float * list float * list float) :=
  if c_int fastperiod && c_int slowperiod && c_int signalperiod
  then MACD_periods real (opt_period 12 fastperiod)
                    (opt_period 26 slowperiod) (opt_period 9 signalperiod)
  else Raise OverflowError.

End talib.

(** ** backtest.py: [BacktestRunner._prepare_data] *)

Definition required_columns : list string :=
  ["Open"; "High"; "Low"; "Close"; "Volume"].

Definition col_notna (i : nat) (c : column) : bool :=
  match c with
  | FloatCol xs => negb (isna (xs !!! i))
  | IntCol _ => true
  end.

(** Rows at the given positions, in the given order. *)
Definition col_take (rows : list nat) (c : column) : column :=
  match c with
  | FloatCol xs => FloatCol ((λ i, xs !!! i) <$> rows)
  | IntCol xs => IntCol ((λ i, xs !!! i) <$> rows)
  end.

Definition take_rows (rows : list nat) (df : DataFrame) : DataFrame :=
  mkDataFrame ((λ i, df_index df !!! i) <$> rows)
              (col_take rows <$> df_columns df).

(** The positions of the rows without a missing value. *)
Definition complete_rows (df : DataFrame) : list nat :=
  filter (λ i, map_Forall (λ _ c, col_notna i c = true) (df_columns df))
         (seq 0 (length (df_index df))).

(** [df.dropna()]: keep the rows without a missing value. *)
Definition dropna (df : DataFrame) : DataFrame :=
  take_rows (complete_rows df) df.

Definition label_le : relation (Z * nat) := λ a b, a.1 ≤ b.1.

#[export] Instance label_le_dec a b : Decision (label_le a b).
Proof. unfold label_le. apply _. Defined.

(** [df.sort_index()]: rows in ascending order of their labels.  The order
    in which pandas leaves rows of equal label is not fixed; the statements
    about [sort_index] speak of the rows up to the order of equal labels, or
    of frames with distinct labels. *)
Definition sort_index (df : DataFrame) : DataFrame :=
  take_rows
    ((merge_sort label_le
        (zip (df_index df) (seq 0 (length (df_index df))))).*2)
    df.

Record BacktestRunner := mkBacktestRunner {
  data : DataFrame
}.

(** [BacktestRunner._prepare_data]; the two [print] calls read the length
    and the first and last label of the prepared frame. *)
Definition _prepare_data (self : BacktestRunner) : result BacktestRunner :=
  match filter (λ col, df_columns (data self) !! col = None) required_columns with
  | col :: _ => Raise (ValueError col)
  | [] =>
      let d := dropna (data self) in
      let d := sort_index d in
      match df_index d with
      | [] => Raise IndexError
      | _ :: _ => Ok (mkBacktestRunner d)
      end
  end.

(** ** backtest.py: [MACDBacktestStrategy.next] *)

Inductive order :=
| BuyOrder (size : Q)
| CloseOrder.

Record Trade := mkTrade {
  t_size : Q;
  t_entry_price : Q
}.

(** What the strategy sees of the broker: cash, the open trades and the
    orders placed and not yet executed. *)
Record Broker := mkBroker {
  cash : Q;
  trades : list Trade;
  orders : list order
}.

Definition position_size (b : Broker) : Q :=
  foldr (λ t acc, (t_size t + acc)%Q) 0%Q (trades b).

(** Truth value of [self.position]: the position size is not zero. *)
Definition has_position (b : Broker) : bool :=
  negb (Qeq_bool (position_size b) 0).

Definition place (o : order) (b : Broker) : Broker :=
  mkBroker (cash b) (trades b) (orders b ++ [o]).

Record BacktestParams := mkBacktestParams {
  p_fast_period : Z;
  p_slow_period : Z;
  p_signal_period : Z;
  p_position_size : Q
}.

(** [next] at the bar with position [len_data - 1]: [self.data] and
    [self.signals] are the first [len_data] rows. *)
Definition next (self : BacktestParams) (signals : list float)
    (len_data : nat) (b : Broker) : Broker :=
  if Z.of_nat len_data <?
       Z.max (Z.max (p_fast_period self) (p_slow_period self))
             (p_signal_period self) + 10
  then b
  else
    let current_signal := signals !!! (len_data - 1)%nat in
    let prev_signal :=
      if decide (1 < len_data)%nat then signals !!! (len_data - 2)%nat
      else of_Z 0 in
    if isna current_signal then b
    else if feq current_signal (of_Z 1) && negb (feq prev_signal (of_Z 1))
    then (if negb (has_position b)
          then place (BuyOrder (p_position_size self)) b else b)
    else if feq current_signal (of_Z (-1))
            && negb (feq prev_signal (of_Z (-1)))
    then (if has_position b then place CloseOrder b else b)
    else b.

Section Simulation.
(** Rounding of a quantity to the tradable lot, and the commission rate. *)
Variable floor_to_lot : Q → Q.
Variable commission : Q.

(** Modelled from the spec: the execution of an order by the simulation
    engine (the broker of the back-testing library is not part of the
    repository).  A buy spends the given fraction of the cash at the close
    when the quantity is positive and affordable; a close sells everything
    held at the close. *)
Definition execute (close : Q) (b : Broker) (o : order) : Broker :=
  match o with
  | BuyOrder frac =>
      let quantity := floor_to_lot (cash b * frac / close)%Q in
      let cost := (quantity * close * (1 + commission))%Q in
      if negb (Qle_bool quantity 0) && Qle_bool cost (cash b)
      then mkBroker (cash b - cost)%Q
                    (trades b ++ [mkTrade quantity close]) (orders b)
      else b
  | CloseOrder =>
      mkBroker (cash b + position_size b * close * (1 - commission))%Q
               [] (orders b)
  end.

Definition execute_orders (close : Q) (b : Broker) : Broker :=
  foldl (execute close) (mkBroker (cash b) (trades b) []) (orders b).

(** Modelled from the spec: the event loop; bar [i] is handed to [next]
    and the orders it placed are executed at that bar's close. *)
Definition on_bar (self : BacktestParams) (signals : list float)
    (b : Broker) (bar : nat * Q) : Broker :=
  execute_orders bar.2 (next self signals (S bar.1) b).

Definition run (self : BacktestParams) (signals : list float)
    (closes : list Q) (cash0 : Q) : Broker :=
  foldl (on_bar self signals) (mkBroker cash0 [] [])
        (zip (seq 0 (length closes)) closes).
End Simulation.

(** ** backtest.py: [BacktestRunner.optimize_strategy] *)


(** [constraint=lambda p: p.fast_period < p.slow_period] *)
Definition constraint (p : BacktestParams) : Prop :=
  p_fast_period p < p_slow_period p.

#[export] Instance constraint_dec p : Decision (constraint p).
Proof. unfold constraint. apply _. Defined.




(** ** Frames of close prices *)

Definition frame_of_closes (closes : list Z) : DataFrame :=
  mkDataFrame (Z.of_nat <$> seq 0 (length closes))
              {[ "Close" := FloatCol (of_Z <$> closes) ]}.

Definition closes_touch : list Z :=
  [64; 64; 64; 64; 64; 64; 64; 64; 64; 80; 68; 80].

Definition closes_fall : list Z :=
  [64; 64; 64; 64; 64; 64; 64; 64; 64; 48].

Definition signal_column (r : result (loc * MACDStrategy * heap))
  : option column :=
  match r with
  | Ok (l, _, h) => d ← h !! l; df_columns d !! "Signal"
  | Raise _ => None
  end.

Definition position_column (r : result (loc * MACDStrategy * heap))
  : option column :=
  match r with
  | Ok (l, _, h) => d ← h !! l; df_columns d !! "Position"
  | Raise _ => None
  end.

(** ** Crossovers

    The four values read at row [i] are numbers; the oscillator crosses its
    signal line upwards, or downwards, between row [i - 1] and row [i]. *)

Definition defined_at (macd sig : list float) (i : nat) : bool :=
  negb (isna (macd !!! i) || isna (sig !!! i)
        || isna (macd !!! (i - 1)%nat) || isna (sig !!! (i - 1)%nat)).

Definition cross_up (macd sig : list float) (i : nat) : bool :=
  fle (macd !!! (i - 1)%nat) (sig !!! (i - 1)%nat)
  && fgt (macd !!! i) (sig !!! i).

Definition cross_down (macd sig : list float) (i : nat) : bool :=
  fge (macd !!! (i - 1)%nat) (sig !!! (i - 1)%nat)
  && flt (macd !!! i) (sig !!! i).

(** The signal of row [i] as a function of the two lines alone. *)
Definition emitted (macd sig : list float) (i : nat) : Z :=
  if decide (1 ≤ i)%nat then
    if defined_at macd sig i then
      if cross_up macd sig i then 1
      else if cross_down macd sig i then -1 else 0
    else 0
  else 0.

(** The frame that [generate_signals] leaves at the new reference, in terms
    of the three lines and the final state of the loop. *)
Definition signal_frame (d : DataFrame) (m s hi : list float)
    (st : list Z * list Z * Z) : DataFrame :=
  mkDataFrame (df_index d)
    (<["Position" := IntCol st.1.2]>
       (<["Signal" := IntCol st.1.1]>
          (<["MACD_Histogram" := FloatCol hi]>
             (<["MACD_Signal" := FloatCol s]>
                (<["MACD" := FloatCol m]> (df_columns d)))))).

Definition computed_columns : list string :=
  ["MACD"; "MACD_Signal"; "MACD_Histogram"; "Signal"; "Position"].

(** Invariant of the signal loop over [n] rows: after the rows [1..k] the
    [Signal] column holds the emissions of these rows and zero elsewhere, and
    the [Position] column records every non-hold emission at its row. *)
Definition loop_inv (n : nat) (macd sig : list float) (k : nat)
    (st : list Z * list Z * Z) : Prop :=
  length st.1.1 = n ∧ length st.1.2 = n
  ∧ (∀ i, (i < n)%nat →
       st.1.1 !!! i = if decide (i ≤ k)%nat then emitted macd sig i else 0)
  ∧ (∀ i, (i < n)%nat → (i ≤ k)%nat → emitted macd sig i ≠ 0 →
       st.1.2 !!! i = emitted macd sig i).

(** The last non-hold signal before row [i] (zero when there is none). *)
Definition prev_nonhold (Signal : list Z) (i : nat) : Z :=
  default 0 (head (filter (λ x, x ≠ 0) (reverse (take i Signal)))).

(** Some row strictly between [i] and [j] carries the signal opposite to the
    one of row [i]. *)
Definition opposite_between (Signal : list Z) (i j : nat) : Prop :=
  ∃ k, (i < k < j)%nat ∧ Signal !!! k = - Signal !!! i.

(** The two lines are numbers and differ at row [k]. *)
Definition apart (macd sig : list float) (k : nat) : Prop :=
  flt (macd !!! k) (sig !!! k) = true ∨ fgt (macd !!! k) (sig !!! k) = true.

(** ** Sample data *)

Definition sample_strategy : MACDStrategy := mkMACDStrategy 3 7 3 0 None.

Definition sample_heap (closes : list Z) : heap :=
  {[ 0%nat := frame_of_closes closes ]}.

Definition sample_run (closes : list Z)
  : result (loc * MACDStrategy * heap) :=
  generate_signals talib.MACD sample_strategy 0%nat (sample_heap closes).

Definition sample_out (closes : list Z) : loc * MACDStrategy * heap :=
  match sample_run closes with
  | Ok out => out
  | Raise _ => (0%nat, sample_strategy, ∅)
  end.

(** C1 as the specification words it: Buy exactly on an upward cross after
    which the previous non-hold emission is not Buy, and likewise for Sell. *)
Definition claimed_emission (macd sig : list float) (Signal : list Z)
    (i : nat) : Prop :=
  (Signal !!! i = 1 ↔
     cross_up macd sig i = true ∧ prev_nonhold Signal i ≠ 1)
  ∧ (Signal !!! i = -1 ↔
       cross_down macd sig i = true ∧ prev_nonhold Signal i ≠ -1).

(** A number of magnitude at most [10^300]: with such prices every sum that
    the indicator forms, of up to 100000 of them, stays within the range of
    a double. *)
Definition bounded (x : float) : Prop :=
  match x with
  | Some q => (Qabs q <= inject_Z (10 ^ 300))%Q
  | None => False
  end.

(** The first [n] rows of the three lines. *)
Definition take3 (n : nat) (t : list float * list float * list float)
  : list float * list float * list float :=
  (take n t.1.1, take n t.1.2, take n t.2).

(** An indicator is causal when its value at a row does not depend on the
    rows that follow, and length-preserving when it returns one value per
    input row. *)
Definition causal
    (ind : list float → Z → Z → Z →
           result (list float * list float * list float)) : Prop :=
  ∀ xs ys fast slow signal,
    ind xs fast slow signal
    = take3 (length xs) <$> ind (xs ++ ys) fast slow signal.

Definition length_preserving
    (ind : list float → Z → Z → Z →
           result (list float * list float * list float)) : Prop :=
  ∀ xs fast slow signal m s h,
    ind xs fast slow signal = Ok (m, s, h) →
    length m = length xs ∧ length s = length xs ∧ length h = length xs.

(** Two frames at [0] and [1]: the first ten rows of [closes_touch], and
    all twelve. *)
Definition prefix_heap : heap :=
  {[ 0%nat := frame_of_closes (take 10 closes_touch);
     1%nat := frame_of_closes closes_touch ]}.

Definition prefix_out : loc * MACDStrategy * heap :=
  match generate_signals talib.MACD sample_strategy 0%nat prefix_heap with
  | Ok out => out
  | Raise _ => (0%nat, sample_strategy, ∅)
  end.

(** The second frame of the pair below extends the first ten rows of
    [closes_touch] by two rows, the last of which repeats the label 3. *)
Definition repeated_label_frame : DataFrame :=
  mkDataFrame ((Z.of_nat <$> seq 0 11) ++ [3])
              {[ "Close" := FloatCol (of_Z <$> closes_touch) ]}.

Definition repeated_label_heap : heap :=
  {[ 0%nat := frame_of_closes (take 10 closes_touch);
     1%nat := repeated_label_frame ]}.

(** Seventeen bars of signals that end in a Sell, and in a Buy: at the
    seventeenth bar [next] of a (3, 7, 3) strategy is past its test on the
    number of bars.  A broker without a position, and one that holds a
    trade. *)
Definition signals_sell : list float := replicate 16 (of_Z 0) ++ [of_Z (-1)].
Definition signals_buy : list float := replicate 16 (of_Z 0) ++ [of_Z 1].
Definition flat_broker : Broker := mkBroker 100 [] [].
Definition long_broker : Broker := mkBroker 20 [mkTrade 1 80] [].

(** Between two bars no order is pending and at most one trade is open, of
    a positive size. *)
Definition settled (b : Broker) : Prop :=
  orders b = []
  ∧ (trades b = [] ∨ ∃ t, trades b = [t] ∧ (0 < t_size t)%Q).

(** A frame with a negative close and labels out of order. *)
Definition unsorted_frame : DataFrame :=
  mkDataFrame [3; 1; 2]
    (list_to_map
       ((λ c, (c, FloatCol [of_Z (-5); of_Z 7; of_Z 9])) <$> required_columns)).

(** ** More on the signal generator *)

(** The last non-hold entry of a signal column, or [d] when there is none. *)
Definition last_nonhold (Signal : list Z) (d : Z) : Z :=
  foldl (λ acc x, if decide (x = 0) then acc else x) d Signal.

(** A frame with a single row, and a frame of eight rows: shorter than the
    warm-up of the sample strategy. *)
Definition closes_short : list Z := [64; 80; 48; 80; 48; 80; 48; 80].


(** ** backtest.py: [MACDBacktestStrategy.init] *)

(** [pd.DataFrame({name: values, ...}, index=idx)]: every column must have
    one value per label. *)
Definition pd_DataFrame (cols : list (string * column)) (idx : list Z)
  : result DataFrame :=
  if decide (Forall (λ nc, col_length nc.2 = length idx) cols)
  then Ok (mkDataFrame idx (list_to_map cols))
  else Raise (ValueError "Length of values does not match length of index").

(** [range(n)] as row labels. *)
Definition range_index (n : nat) : list Z := Z.of_nat <$> seq 0 n.

(** What [init] leaves on the back-test strategy object. *)
Record MACDBacktestStrategy := mkMACDBacktestStrategy {
  bt_params : BacktestParams;
  macd_strategy : MACDStrategy;
  bt_macd : list float;
  bt_signal_line : list float;
  bt_histogram : list float;
  bt_signals : list float
}.

(** [col.values] of a numeric column, as the numbers the hooks compare. *)
Definition column_values (c : column) : list float :=
  match c with
  | FloatCol xs => xs
  | IntCol xs => of_Z <$> xs
  end.

Section BacktestInit.
Variable talib_MACD :
  list float → Z → Z → Z → result (list float * list float * list float).

(** [init]: [data] is [self.data]; the frame handed to the strategy is a
    new object with the labels [0 .. len(self.data) - 1]. *)
Definition init (params : BacktestParams) (data : DataFrame) (h : heap)
  : result (MACDBacktestStrategy * heap) :=
  let macd_strategy :=
    mkMACDStrategy (p_fast_period params) (p_slow_period params)
                   (p_signal_period params) 0 None in
  o ← s_values <$> getitem data "Open";
  hi ← s_values <$> getitem data "High";
  lo ← s_values <$> getitem data "Low";
  c ← s_values <$> getitem data "Close";
  v ← s_values <$> getitem data "Volume";
  df ← pd_DataFrame
        [("Open", o); ("High", hi); ("Low", lo); ("Close", c); ("Volume", v)]
        (range_index (length (df_index data)));
  let '(l, h) := copy df h in
  '(signals_df, macd_strategy, h) ← generate_signals talib_MACD macd_strategy l h;
  match h !! signals_df with
  | None => Raise (KeyError "signals_df")
  | Some r =>
      m ← s_values <$> getitem r "MACD";
      sl ← s_values <$> getitem r "MACD_Signal";
      hs ← s_values <$> getitem r "MACD_Histogram";
      sg ← s_values <$> getitem r "Signal";
      Ok (mkMACDBacktestStrategy params macd_strategy
            (column_values m) (column_values sl) (column_values hs)
            (column_values sg), h)
  end.
End BacktestInit.

(** Five rows of prices as [self.data]. *)
Definition ohlcv_frame (closes : list Z) : DataFrame :=
  mkDataFrame ((λ i, 1000 + Z.of_nat i) <$> seq 0 (length closes))
    (list_to_map
       ((λ c, (c, FloatCol (of_Z <$> closes))) <$> required_columns)).

Definition init_out (closes : list Z) : MACDBacktestStrategy * heap :=
  match init talib.MACD (mkBacktestParams 3 7 3 (4 # 5))
             (ohlcv_frame closes) ∅ with
  | Ok out => out
  | Raise _ =>
      (mkMACDBacktestStrategy (mkBacktestParams 0 0 0 0) sample_strategy
         [] [] [] [], ∅)
  end.

(** Twenty rows: flat for seventeen, then the three last rows of
    [closes_touch]. *)
Definition closes_long : list Z := replicate 17 64 ++ [80; 68; 80].

(** ** Well-formed and clean frames *)

(** Every column has one entry per row label. *)
Definition frame_wf (df : DataFrame) : Prop :=
  ∀ name c, df_columns df !! name = Some c →
    col_length c = length (df_index df).

(** No float column holds a missing value. *)
Definition frame_notna (df : DataFrame) : Prop :=
  ∀ name xs, df_columns df !! name = Some (FloatCol xs) → Forall defined xs.

(** Three clean rows in ascending order of their labels. *)
Definition clean_frame : DataFrame :=
  mkDataFrame [1; 2; 3]
    (list_to_map
       ((λ c, (c, FloatCol [of_Z 7; of_Z 9; of_Z 5])) <$> required_columns)).


(** ** alpaca_trader.py: [TradingBot] *)

(** One entry of [trade_history]. *)
Record TradeRecord := mkTradeRecord {
  tr_timestamp : Z;
  tr_action : string;
  tr_symbol : string;
  tr_qty : Q;
  tr_order_id : string;
  tr_signal_price : option float
}.

Record TradingBot := mkTradingBot {
  bot_symbol : string;
  bot_position : float;
  bot_last_signal : option Z;
  trade_history : list TradeRecord
}.

(** [TradingBot.__init__], once the client is connected. *)
Definition new_bot (symbol : string) : TradingBot :=
  mkTradingBot symbol (of_Z 0) None [].

(** What the brokerage client answers during one call; [None] stands for a
    raised exception.  [get_positions] gives the symbol and quantity of every
    position, [get_account_info] the buying power, and [place_order symbol
    qty side] the identifier of the accepted order. *)
Record Trader := mkTrader {
  get_positions : option (list (string * float));
  get_account_info : option float;
  place_order : string → Q → string → option string
}.

Record OrderRequest := mkOrderRequest {
  rq_symbol : string;
  rq_qty : Q;
  rq_side : string
}.

Definition with_position (self : TradingBot) (p : float) : TradingBot :=
  mkTradingBot (bot_symbol self) p (bot_last_signal self)
               (trade_history self).

Definition with_last_signal (self : TradingBot) (s : Z) : TradingBot :=
  mkTradingBot (bot_symbol self) (bot_position self) (Some s)
               (trade_history self).

Definition append_trade (self : TradingBot) (t : TradeRecord) : TradingBot :=
  mkTradingBot (bot_symbol self) (bot_position self) (bot_last_signal self)
               (trade_history self ++ [t]).

(** The quantity of the first position in the bot's symbol, else zero. *)
Fixpoint first_position (symbol : string) (positions : list (string * float))
  : float :=
  match positions with
  | [] => of_Z 0
  | pos :: rest =>
      if decide (pos.1 = symbol) then pos.2 else first_position symbol rest
  end.

(** [TradingBot.update_position]; a failure of the client is printed and the
    position is left as it was. *)
Definition update_position (api : Trader) (self : TradingBot) : TradingBot :=
  match get_positions api with
  | Some positions =>
      with_position self (first_position (bot_symbol self) positions)
  | None => self
  end.

(** [int(x)]: truncation towards zero; not-a-number raises. *)
Definition py_int (x : float) : option Z :=
  match x with
  | Some q => Some (if Qle_bool 0 q then Qfloor q else Qceiling q)
  | None => None
  end.

(** Truth value of [price]: [None] and zero are false. *)
Definition price_given (price : option float) : bool :=
  match price with
  | None => false
  | Some None => true
  | Some (Some q) => negb (Qeq_bool q 0)
  end.

Definition fabs (x : float) : float :=
  match x with Some q => Some (Qabs q) | None => None end.

(** [TradingBot.execute_signal]; the second component lists the orders sent
    to the client.  Every exception is caught and printed, which skips the
    rest of the body.  The quantity of a buy is computed here in exact
    arithmetic, so it can differ from the one the doubles give; the
    statements about [execute_signal] use only that it is a positive whole
    number. *)
Definition execute_signal (api : Trader) (now : Z) (self : TradingBot)
    (signal : Z) (price : option float) : TradingBot * list OrderRequest :=
  let self := update_position api self in
  if (signal =? 1) && fle (bot_position self) (of_Z 0) then
    match get_account_info api with
    | None => (self, [])
    | Some buying_power =>
        let available_cash := fmul buying_power (of_Q (9 # 10)) in
        let ratio :=
          match price with
          | Some p => if price_given price then fdiv available_cash p
                      else fdiv available_cash (of_Z 100)
          | None => fdiv available_cash (of_Z 100)
          end in
        match py_int ratio with
        | None => (self, [])
        | Some qty =>
            if 0 <? qty then
              let rq := mkOrderRequest (bot_symbol self) (inject_Z qty) "buy" in
              match place_order api (bot_symbol self) (inject_Z qty) "buy" with
              | None => (self, [rq])
              | Some order_id =>
                  (with_last_signal
                     (append_trade self
                        (mkTradeRecord now "BUY" (bot_symbol self)
                           (inject_Z qty) order_id price))
                     signal, [rq])
              end
            else (with_last_signal self signal, [])
        end
    end
  else if (signal =? -1) && fgt (bot_position self) (of_Z 0) then
    match fabs (bot_position self) with
    | None => (self, [])
    | Some qty =>
        let rq := mkOrderRequest (bot_symbol self) qty "sell" in
        match place_order api (bot_symbol self) qty "sell" with
        | None => (self, [rq])
        | Some order_id =>
            (with_last_signal
               (append_trade self
                  (mkTradeRecord now "SELL" (bot_symbol self) qty order_id
                     price))
               signal, [rq])
        end
    end
  else (with_last_signal self signal, []).

(** The counts of [TradingBot.get_trade_summary]; a bot without trades
    reports the total only. *)
Definition get_trade_summary (self : TradingBot) : gmap string Z :=
  match trade_history self with
  | [] => {[ "total_trades" := 0 ]}
  | _ =>
      let buy_trades :=
        filter (λ t, tr_action t = "BUY") (trade_history self) in
      let sell_trades :=
        filter (λ t, tr_action t = "SELL") (trade_history self) in
      {[ "total_trades" := Z.of_nat (length (trade_history self));
         "buy_trades" := Z.of_nat (length buy_trades);
         "sell_trades" := Z.of_nat (length sell_trades) ]}
  end.

(** A session: one client answer, clock reading, signal and price per call
    of [execute_signal]. *)
Definition bot_session
    (calls : list (Trader * Z * Z * option float)) (self : TradingBot)
  : TradingBot :=
  foldl (λ bot c, (execute_signal c.1.1.1 c.1.1.2 bot c.1.2 c.2).1)
        self calls.

(** A trade record as [execute_signal] writes it for the bot's symbol. *)
Definition trade_ok (symbol : string) (t : TradeRecord) : Prop :=
  tr_symbol t = symbol
  ∧ (tr_action t = "BUY" ∨ tr_action t = "SELL")
  ∧ (0 < tr_qty t)%Q.


(** * Properties *)

(** ** Floating-point comparisons *)

Lemma fle_Some x y : fle (Some x) (Some y) = true ↔ (x <= y)%Q.
Proof. simpl. apply Qle_bool_iff. Qed.

Lemma flt_Some x y : flt (Some x) (Some y) = true ↔ (x < y)%Q.
Proof.
  simpl. rewrite negb_true_iff. split.
  - intros H. apply Qnot_le_lt. intros Hle.
    apply Qle_bool_iff in Hle. congruence.
  - intros H. destruct (Qle_bool y x) eqn:E; [|done].
    apply Qle_bool_iff in E. exfalso. by apply (Qlt_not_le x y).
Qed.

Lemma flt_fle_false a b : flt a b = true → fle b a = false.
Proof.
  destruct a as [x|], b as [y|]; simpl; try done.
  by rewrite negb_true_iff.
Qed.

Lemma fgt_flt_false a b : fgt a b = true → flt a b = false.
Proof.
  unfold fgt. destruct a as [x|], b as [y|]; simpl; try done.
  rewrite !negb_true_iff, negb_false_iff. intros H.
  destruct (Qle_bool y x) eqn:E; [done|].
  exfalso. assert (¬ (x <= y)%Q) as H1 by (rewrite <- Qle_bool_iff; congruence).
  assert (¬ (y <= x)%Q) as H2 by (rewrite <- Qle_bool_iff; congruence).
  apply H1. apply Qlt_le_weak. by apply Qnot_le_lt.
Qed.

(** Two numbers are ordered one way or the other, or equal. *)
Lemma float_trichotomy a b :
  isna a = false → isna b = false →
  flt a b = true ∨ feq a b = true ∨ fgt a b = true.
Proof.
  destruct a as [x|], b as [y|]; simpl; try done. intros _ _.
  unfold fgt. simpl.
  destruct (Q_dec x y) as [[H|H]|H].
  - left. by apply (flt_Some x y).
  - right; right. by apply (flt_Some y x).
  - right; left. by apply Qeq_bool_iff.
Qed.

Lemma fle_of_not_fgt a b :
  isna a = false → isna b = false → fgt a b = false → fle a b = true.
Proof.
  destruct a as [x|], b as [y|]; simpl; try done. intros _ _.
  unfold fgt. simpl. by rewrite negb_false_iff.
Qed.

Lemma fge_of_fgt a b : fgt a b = true → fge a b = true.
Proof.
  unfold fgt, fge. destruct a as [x|], b as [y|]; try done.
  rewrite flt_Some, fle_Some. apply Qlt_le_weak.
Qed.

(** ** Writes by label *)

Lemma length_loc_set idx label v col :
  length idx = length col → length (loc_set idx label v col) = length col.
Proof. intros H. unfold loc_set. rewrite length_zip_with. lia. Qed.

Lemma loc_set_lookup idx label v col (i : nat) :
  length idx = length col → (i < length col)%nat →
  loc_set idx label v col !!! i
  = if decide (idx !!! i = label) then v else col !!! i.
Proof.
  intros Hlen Hi. unfold loc_set.
  destruct (lookup_lt_is_Some_2 idx i) as [l Hl]; [lia|].
  destruct (lookup_lt_is_Some_2 col i) as [x Hx]; [lia|].
  rewrite (list_lookup_total_correct _ _ _ Hl).
  rewrite (list_lookup_total_correct _ _ _ Hx).
  apply list_lookup_total_correct.
  rewrite lookup_zip_with, Hl. simpl. by rewrite Hx.
Qed.

Lemma NoDup_lookup_total_inj (idx : list Z) (i j : nat) :
  NoDup idx → (i < length idx)%nat → (j < length idx)%nat →
  idx !!! i = idx !!! j → i = j.
Proof.
  intros Hnd Hi Hj Heq.
  destruct (lookup_lt_is_Some_2 idx i) as [a Ha]; [done|].
  destruct (lookup_lt_is_Some_2 idx j) as [b Hb]; [done|].
  rewrite (list_lookup_total_correct _ _ _ Ha) in Heq.
  rewrite (list_lookup_total_correct _ _ _ Hb) in Heq. subst b.
  eapply NoDup_lookup; eauto.
Qed.

(** ** The signal loop *)

Section SignalLoop.
Variables (idx : list Z) (macd sig : list float).
Let n := length idx.

Lemma signal_step_defined st i :
  defined_at macd sig i = false → signal_step idx macd sig st i = st.
Proof.
  unfold defined_at, signal_step. rewrite negb_false_iff. intros ->.
  by destruct st as [[??]?].
Qed.

Lemma signal_step_eq st i :
  signal_step idx macd sig st i =
  if defined_at macd sig i then
    if cross_up macd sig i
    then (loc_set idx (idx !!! i) 1 st.1.1,
          loc_set idx (idx !!! i) 1 st.1.2, 1)
    else if cross_down macd sig i
    then (loc_set idx (idx !!! i) (-1) st.1.1,
          loc_set idx (idx !!! i) (-1) st.1.2, -1)
    else (st.1.1, loc_set idx (idx !!! i) st.2 st.1.2, st.2)
  else st.
Proof.
  destruct st as [[Sg Ps] pos].
  unfold signal_step, defined_at, cross_up, cross_down. simpl.
  by destruct (_ || _ || _ || _).
Qed.

Lemma Signal_step_length st i :
  length st.1.1 = n → length st.1.2 = n →
  length (signal_step idx macd sig st i).1.1 = n
  ∧ length (signal_step idx macd sig st i).1.2 = n.
Proof.
  destruct st as [[S P] pos]. simpl. intros HS HP. unfold signal_step.
  repeat case_match; simpl; rewrite ?length_loc_set; auto; congruence.
Qed.

Lemma emitted_0 : emitted macd sig 0 = 0.
Proof. done. Qed.

Lemma emitted_range i : emitted macd sig i ∈ [-1; 0; 1].
Proof. unfold emitted. repeat case_match; set_solver. Qed.

Lemma loop_inv_step k st :
  NoDup idx → (S k < n)%nat →
  loop_inv n macd sig k st →
  loop_inv n macd sig (S k) (signal_step idx macd sig st (S k)).
Proof.
  intros Hnd Hk (HS & HP & Hsig & Hpos).
  destruct (Signal_step_length st (S k) HS HP) as [HS' HP'].
  split; [done|]. split; [done|]. clear HS' HP'.
  rewrite signal_step_eq.
  destruct st as [[Sg Ps] pos]. simpl in *.
  assert (Hem : emitted macd sig (S k) =
    if defined_at macd sig (S k) then
      if cross_up macd sig (S k) then 1
      else if cross_down macd sig (S k) then -1 else 0
    else 0).
  { unfold emitted. case_decide; [done|lia]. }
  assert (Hlab : ∀ i, (i < n)%nat →
    (idx !!! i = idx !!! S k) ↔ i = S k).
  { intros i Hi. split; [|by intros ->].
    by apply NoDup_lookup_total_inj. }
  destruct (defined_at macd sig (S k)) eqn:Ed; simpl.
  2:{ split.
      - intros i Hi. rewrite Hsig by done.
        repeat case_decide; try done; try lia.
        assert (i = S k) as -> by lia. by rewrite Hem.
      - intros i Hi Hik Hne. destruct (decide (i = S k)) as [->|].
        + by rewrite Hem in Hne.
        + apply Hpos; [done|lia|done]. }
  destruct (cross_up macd sig (S k)) eqn:Eu; simpl.
  { split.
    - intros i Hi. rewrite loc_set_lookup by lia.
      case_decide as Hl.
      + apply Hlab in Hl; [|done]. subst i.
        rewrite decide_True by lia. by rewrite Hem.
      + rewrite Hsig by done.
        assert (i ≠ S k) by (intros ->; by apply Hl).
        repeat case_decide; try done; lia.
    - intros i Hi Hik Hne. rewrite loc_set_lookup by lia.
      case_decide as Hl.
      + apply Hlab in Hl; [|done]. subst i. by rewrite Hem.
      + assert (i ≠ S k) by (intros ->; by apply Hl).
        apply Hpos; [done|lia|done]. }
  destruct (cross_down macd sig (S k)) eqn:Edn; simpl.
  { split.
    - intros i Hi. rewrite loc_set_lookup by lia.
      case_decide as Hl.
      + apply Hlab in Hl; [|done]. subst i.
        rewrite decide_True by lia. by rewrite Hem.
      + rewrite Hsig by done.
        assert (i ≠ S k) by (intros ->; by apply Hl).
        repeat case_decide; try done; lia.
    - intros i Hi Hik Hne. rewrite loc_set_lookup by lia.
      case_decide as Hl.
      + apply Hlab in Hl; [|done]. subst i. by rewrite Hem.
      + assert (i ≠ S k) by (intros ->; by apply Hl).
        apply Hpos; [done|lia|done]. }
  split.
  - intros i Hi. rewrite Hsig by done.
    repeat case_decide; try done; try lia.
    assert (i = S k) as -> by lia. by rewrite Hem.
  - intros i Hi Hik Hne. rewrite loc_set_lookup by lia.
    case_decide as Hl.
    + apply Hlab in Hl; [|done]. subst i. by rewrite Hem in Hne.
    + assert (i ≠ S k) by (intros ->; by apply Hl).
      apply Hpos; [done|lia|done].
Qed.

Lemma loop_inv_foldl pos k :
  NoDup idx → (k ≤ n - 1)%nat →
  loop_inv n macd sig k (foldl (signal_step idx macd sig)
                    (replicate n 0, replicate n 0, pos) (seq 1 k)).
Proof.
  intros Hnd. induction k as [|k IH]; intros Hk.
  - simpl. unfold loop_inv. simpl. rewrite !length_replicate.
    split; [done|]. split; [done|]. split.
    + intros i Hi. rewrite lookup_total_replicate_2 by done.
      case_decide; [|done]. assert (i = 0%nat) as -> by lia. done.
    + intros i Hi Hi0 Hne. assert (i = 0%nat) as -> by lia. done.
  - rewrite seq_S, foldl_app. simpl.
    apply loop_inv_step; [done|lia|]. apply IH. lia.
Qed.

(** With distinct labels the [Signal] column is the emission of each row. *)
Lemma signal_loop_emitted pos :
  NoDup idx →
  length (signal_loop idx macd sig pos).1.1 = n
  ∧ ∀ i, (i < n)%nat →
      (signal_loop idx macd sig pos).1.1 !!! i = emitted macd sig i.
Proof.
  intros Hnd. unfold signal_loop. fold n.
  destruct (loop_inv_foldl pos (n - 1) Hnd) as (HS & _ & Hsig & _); [lia|].
  split; [done|]. intros i Hi. rewrite Hsig by done.
  rewrite decide_True; [done|lia].
Qed.

End SignalLoop.

(** Facts about the loop that do not depend on the labels being distinct. *)
Section SignalLoopAnyIndex.
Variables (idx : list Z) (macd sig : list float).

Lemma foldl_signal_step_lengths st rows :
  length st.1.1 = length idx → length st.1.2 = length idx →
  length (foldl (signal_step idx macd sig) st rows).1.1 = length idx
  ∧ length (foldl (signal_step idx macd sig) st rows).1.2 = length idx.
Proof.
  revert st. induction rows as [|i rows IH]; intros st HS HP; [done|].
  simpl. destruct (Signal_step_length idx macd sig st i HS HP).
  by apply IH.
Qed.

Lemma signal_loop_lengths pos :
  length (signal_loop idx macd sig pos).1.1 = length idx
  ∧ length (signal_loop idx macd sig pos).1.2 = length idx.
Proof.
  unfold signal_loop. apply foldl_signal_step_lengths; simpl;
    by rewrite length_replicate.
Qed.

(** The [Signal] column never reads [self.position]. *)
Lemma foldl_signal_step_Signal st1 st2 rows :
  st1.1.1 = st2.1.1 →
  (foldl (signal_step idx macd sig) st1 rows).1.1
  = (foldl (signal_step idx macd sig) st2 rows).1.1.
Proof.
  revert st1 st2. induction rows as [|i rows IH]; intros st1 st2 H; [done|].
  simpl. apply IH. rewrite !signal_step_eq.
  repeat case_match; simpl; congruence.
Qed.

Lemma signal_loop_Signal_indep pos1 pos2 :
  (signal_loop idx macd sig pos1).1.1 = (signal_loop idx macd sig pos2).1.1.
Proof. unfold signal_loop. by apply foldl_signal_step_Signal. Qed.

Lemma Forall_loc_set (P : Z → Prop) label v col :
  P v → Forall P col → Forall P (loc_set idx label v col).
Proof.
  intros Hv Hcol. unfold loc_set. revert col Hcol.
  induction idx as [|l idx' IH]; intros [|x col] Hcol; simpl;
    try by constructor.
  inversion Hcol; subst. constructor; [by case_decide|by apply IH].
Qed.

(** Every value that the loop stores is one of the three states, or the
    state the strategy object started in. *)
Lemma foldl_signal_step_range (P : Z → Prop) st rows :
  P 1 → P (-1) →
  Forall P st.1.1 → Forall P st.1.2 → P st.2 →
  let st' := foldl (signal_step idx macd sig) st rows in
  Forall P st'.1.1 ∧ Forall P st'.1.2 ∧ P st'.2.
Proof.
  intros H1 Hm1. revert st.
  induction rows as [|i rows IH]; intros st HS HP Hpos; [done|].
  simpl. apply IH; rewrite signal_step_eq;
    repeat case_match; simpl; auto using Forall_loc_set.
Qed.

Lemma signal_loop_range (P : Z → Prop) pos :
  P 1 → P (-1) → P 0 → P pos →
  Forall P (signal_loop idx macd sig pos).1.1
  ∧ Forall P (signal_loop idx macd sig pos).1.2
  ∧ P (signal_loop idx macd sig pos).2.
Proof.
  intros Hone Hmone Hzero Hpos. unfold signal_loop.
  apply foldl_signal_step_range; simpl; auto using Forall_replicate.
Qed.
End SignalLoopAnyIndex.

(** ** [generate_signals] as a whole *)

Section GenerateSignals.
Variable talib_MACD :
  list float → Z → Z → Z → result (list float * list float * list float).

Lemma pd_Series_Ok values idx s :
  pd_Series values idx = Ok s ↔
  length values = length idx ∧ s = mkSeries idx (FloatCol values).
Proof.
  unfold pd_Series. case_decide; split; try done.
  - by intros [= <-].
  - by intros [_ ->].
  - by intros [? _].
Qed.

Lemma calculate_macd_Ok self prices m s hi :
  calculate_macd talib_MACD self prices = Ok (m, s, hi) ↔
  ∃ values ml sl hl,
    s_values prices = FloatCol values
    ∧ talib_MACD values (fast_period self) (slow_period self)
                 (signal_period self) = Ok (ml, sl, hl)
    ∧ length ml = length (s_index prices)
    ∧ length sl = length (s_index prices)
    ∧ length hl = length (s_index prices)
    ∧ m = mkSeries (s_index prices) (FloatCol ml)
    ∧ s = mkSeries (s_index prices) (FloatCol sl)
    ∧ hi = mkSeries (s_index prices) (FloatCol hl).
Proof.
  unfold calculate_macd. split.
  - destruct (s_values prices) as [values|]; [|done].
    destruct (talib_MACD _ _ _ _) as [[[ml sl] hl]|] eqn:E; [|done].
    simpl. unfold pd_Series. repeat case_decide; simpl; try done.
    intros [= <- <- <-]. by exists values, ml, sl, hl.
  - intros (values & ml & sl & hl & -> & -> & H1 & H2 & H3 & -> & -> & ->).
    simpl. unfold pd_Series. by rewrite !decide_True by done.
Qed.

Lemma generate_signals_Ok self df h res self' h' :
  generate_signals talib_MACD self df h = Ok (res, self', h') ↔
  ∃ d values m s hi,
    h !! df = Some d
    ∧ df_columns d !! "Close" = Some (FloatCol values)
    ∧ talib_MACD values (fast_period self) (slow_period self)
                 (signal_period self) = Ok (m, s, hi)
    ∧ length m = length (df_index d)
    ∧ length s = length (df_index d)
    ∧ length hi = length (df_index d)
    ∧ res = fresh (dom h)
    ∧ self' = set_position self
                (signal_loop (df_index d) m s (position self)).2
    ∧ h' = <[res := signal_frame d m s hi
                      (signal_loop (df_index d) m s (position self))]> h.
Proof.
  unfold generate_signals, copy. split.
  - destruct (h !! df) as [d|] eqn:Ed; [|done].
    unfold getitem. destruct (df_columns d !! "Close") as [c|] eqn:Ec;
      [|done].
    simpl.
    destruct (calculate_macd _ _ _) as [[[ms ss] hs]|] eqn:Ecalc; [|done].
    apply calculate_macd_Ok in Ecalc
      as (values & ml & sl & hl & Hv & HM & H1 & H2 & H3 & -> & -> & ->).
    simpl in *. subst c. unfold float_values. simpl.
    destruct (signal_loop _ _ _ _) as [[Sg Ps] pos] eqn:El.
    intros [= <- <- <-].
    exists d, values, ml, sl, hl. rewrite El.
    repeat split; try done.
    by rewrite insert_insert_eq.
  - intros (d & values & m & s & hi & -> & Hc & HM & H1 & H2 & H3
            & -> & -> & ->).
    unfold getitem. rewrite Hc. simpl.
    assert (calculate_macd talib_MACD self
              (mkSeries (df_index d) (FloatCol values))
            = Ok (mkSeries (df_index d) (FloatCol m),
                  mkSeries (df_index d) (FloatCol s),
                  mkSeries (df_index d) (FloatCol hi))) as ->.
    { apply calculate_macd_Ok. by exists values, m, s, hi. }
    simpl. unfold float_values. simpl.
    destruct (signal_loop _ _ _ _) as [[Sg Ps] pos] eqn:El.
    by rewrite insert_insert_eq.
Qed.
End GenerateSignals.

(** ** Alternation of the emissions *)

Section Alternation.
Variables (macd sig : list float).

Lemma emitted_1 i :
  emitted macd sig i = 1 ↔
  (1 ≤ i)%nat ∧ defined_at macd sig i = true ∧ cross_up macd sig i = true.
Proof.
  unfold emitted.
  destruct (decide (1 ≤ i)%nat), (defined_at macd sig i),
    (cross_up macd sig i), (cross_down macd sig i);
    split; try done; intros (? & ? & ?); done.
Qed.

Lemma cross_exclusive i :
  cross_up macd sig i = true → cross_down macd sig i = false.
Proof.
  unfold cross_up, cross_down. rewrite andb_true_iff. intros [_ H].
  apply fgt_flt_false in H. rewrite H. apply andb_false_r.
Qed.

Lemma emitted_m1 i :
  emitted macd sig i = -1 ↔
  (1 ≤ i)%nat ∧ defined_at macd sig i = true ∧ cross_down macd sig i = true.
Proof.
  pose proof (cross_exclusive i) as Hex. unfold emitted.
  destruct (decide (1 ≤ i)%nat), (defined_at macd sig i),
    (cross_up macd sig i), (cross_down macd sig i);
    split; try done; try (intros (? & ? & ?); done).
  by specialize (Hex eq_refl).
Qed.

Lemma cross_defined a b c d :
  (fle a b && fgt c d = true ∨ fge a b && flt c d = true) →
  isna c || isna d || isna a || isna b = false.
Proof.
  unfold fge, fgt.
  destruct a, b, c, d; simpl; rewrite ?andb_false_r; try done;
    intros [?|?]; done.
Qed.

Lemma cross_down_emitted k :
  (1 ≤ k)%nat → cross_down macd sig k = true → emitted macd sig k = -1.
Proof.
  intros Hk H. apply emitted_m1. split; [done|]. split; [|done].
  unfold defined_at. rewrite negb_true_iff.
  apply cross_defined. by right.
Qed.

Lemma cross_up_emitted k :
  (1 ≤ k)%nat → cross_up macd sig k = true → emitted macd sig k = 1.
Proof.
  intros Hk H. apply emitted_1. split; [done|]. split; [|done].
  unfold defined_at. rewrite negb_true_iff.
  apply cross_defined. by left.
Qed.

(** Above at [a], below at [b], never equal in between: the line comes
    down through the signal line at some row on the way. *)
Lemma first_down len : ∀ a b,
  (b = a + S len)%nat →
  fgt (macd !!! a) (sig !!! a) = true →
  flt (macd !!! b) (sig !!! b) = true →
  (∀ k, (a < k < b)%nat → apart macd sig k) →
  ∃ k, (a < k ≤ b)%nat ∧ cross_down macd sig k = true.
Proof.
  induction len as [|len IH]; intros a b Hb Ha Hlt Hap.
  - exists b. split; [lia|]. unfold cross_down.
    replace (b - 1)%nat with a by lia.
    by rewrite (fge_of_fgt _ _ Ha), Hlt.
  - destruct (Hap (b - 1)%nat) as [Hl|Hg]; [lia| |].
    + destruct (IH a (b - 1)%nat) as (k & Hk & Hd); try done; [lia| |].
      * intros k Hk. apply Hap. lia.
      * exists k. split; [lia|done].
    + exists b. split; [lia|]. unfold cross_down.
      by rewrite (fge_of_fgt _ _ Hg), Hlt.
Qed.

Lemma first_up len : ∀ a b,
  (b = a + S len)%nat →
  flt (macd !!! a) (sig !!! a) = true →
  fgt (macd !!! b) (sig !!! b) = true →
  (∀ k, (a < k < b)%nat → apart macd sig k) →
  ∃ k, (a < k ≤ b)%nat ∧ cross_up macd sig k = true.
Proof.
  assert (Hle : ∀ x y, flt x y = true → fle x y = true).
  { intros [x|] [y|]; try done. rewrite flt_Some, fle_Some.
    apply Qlt_le_weak. }
  induction len as [|len IH]; intros a b Hb Ha Hgt Hap.
  - exists b. split; [lia|]. unfold cross_up.
    replace (b - 1)%nat with a by lia.
    by rewrite (Hle _ _ Ha), Hgt.
  - destruct (Hap (b - 1)%nat) as [Hl|Hg]; [lia| |].
    + exists b. split; [lia|]. unfold cross_up.
      by rewrite (Hle _ _ Hl), Hgt.
    + destruct (IH a (b - 1)%nat) as (k & Hk & Hd); try done; [lia| |].
      * intros k Hk. apply Hap. lia.
      * exists k. split; [lia|done].
Qed.

Lemma apart_not_fle_fgt a b :
  fle a b = true → fgt a b = true → False.
Proof.
  intros H1 H2. unfold fgt in H2. apply flt_fle_false in H2. congruence.
Qed.

(** Between two Buy emissions with no tie in between there is a Sell. *)
Lemma buy_buy_sell i j :
  (i < j)%nat → emitted macd sig i = 1 → emitted macd sig j = 1 →
  (∀ k, (i < k < j)%nat → apart macd sig k) →
  ∃ k, (i < k < j)%nat ∧ emitted macd sig k = -1.
Proof.
  intros Hij Hi Hj Hap.
  apply emitted_1 in Hi as (Hi1 & _ & Hi).
  apply emitted_1 in Hj as (_ & _ & Hj).
  unfold cross_up in Hi, Hj.
  apply andb_true_iff in Hi as [_ Hi]. apply andb_true_iff in Hj as [Hj _].
  destruct (decide (j - 1 = i)%nat) as [E|E].
  { rewrite E in Hj. destruct (apart_not_fle_fgt _ _ Hj Hi). }
  destruct (Hap (j - 1)%nat) as [Hl|Hg]; [lia| |].
  2:{ destruct (apart_not_fle_fgt _ _ Hj Hg). }
  destruct (first_down (j - 1 - i - 1)%nat i (j - 1)%nat)
    as (k & Hk & Hd); try done; [lia| |].
  { intros k Hk. apply Hap. lia. }
  exists k. split; [lia|]. apply cross_down_emitted; [lia|done].
Qed.

Lemma sell_sell_buy i j :
  (i < j)%nat → emitted macd sig i = -1 → emitted macd sig j = -1 →
  (∀ k, (i < k < j)%nat → apart macd sig k) →
  ∃ k, (i < k < j)%nat ∧ emitted macd sig k = 1.
Proof.
  intros Hij Hi Hj Hap.
  apply emitted_m1 in Hi as (Hi1 & _ & Hi).
  apply emitted_m1 in Hj as (_ & _ & Hj).
  unfold cross_down in Hi, Hj.
  apply andb_true_iff in Hi as [_ Hi]. apply andb_true_iff in Hj as [Hj _].
  destruct (decide (j - 1 = i)%nat) as [E|E].
  { rewrite E in Hj. unfold fge in Hj. apply flt_fle_false in Hi.
    congruence. }
  destruct (Hap (j - 1)%nat) as [Hl|Hg]; [lia| |].
  { unfold fge in Hj. apply flt_fle_false in Hl. congruence. }
  destruct (first_up (j - 1 - i - 1)%nat i (j - 1)%nat)
    as (k & Hk & Hd); try done; [lia| |].
  { intros k Hk. apply Hap. lia. }
  exists k. split; [lia|]. apply cross_up_emitted; [lia|done].
Qed.
End Alternation.

(** ** Columns of the frame that [generate_signals] returns *)

Section SignalFrame.
Variables (d : DataFrame) (m s hi : list float) (st : list Z * list Z * Z).

Lemma signal_frame_MACD :
  df_columns (signal_frame d m s hi st) !! "MACD" = Some (FloatCol m).
Proof. unfold signal_frame. simpl. by simplify_map_eq. Qed.

Lemma signal_frame_MACD_Signal :
  df_columns (signal_frame d m s hi st) !! "MACD_Signal"
  = Some (FloatCol s).
Proof. unfold signal_frame. simpl. by simplify_map_eq. Qed.

Lemma signal_frame_MACD_Histogram :
  df_columns (signal_frame d m s hi st) !! "MACD_Histogram"
  = Some (FloatCol hi).
Proof. unfold signal_frame. simpl. by simplify_map_eq. Qed.

Lemma signal_frame_Signal :
  df_columns (signal_frame d m s hi st) !! "Signal" = Some (IntCol st.1.1).
Proof. unfold signal_frame. simpl. by simplify_map_eq. Qed.

Lemma signal_frame_Position :
  df_columns (signal_frame d m s hi st) !! "Position"
  = Some (IntCol st.1.2).
Proof. unfold signal_frame. simpl. by simplify_map_eq. Qed.

Lemma signal_frame_other c :
  c ∉ computed_columns →
  df_columns (signal_frame d m s hi st) !! c = df_columns d !! c.
Proof.
  unfold computed_columns. intros Hc. unfold signal_frame. simpl.
  rewrite !lookup_insert_ne; [done|..]; intros <-; apply Hc; set_solver.
Qed.
End SignalFrame.

(** ** Claims about [generate_signals] *)

Section SignalClaims.
Variable talib_MACD :
  list float → Z → Z → Z → result (list float * list float * list float).

(** C1, as the code has it.  For a frame with distinct row labels, the
    [Signal] column holds at every row the emission determined by the two
    lines alone: at a row [i >= 1] where the four values read are numbers,
    Buy exactly on an upward cross and Sell exactly on a downward cross,
    whatever was emitted before; zero at every other row.  Two non-hold
    signals of the same sign have an opposite signal between them whenever
    the two lines differ at every row strictly between them. *)
Theorem signal_emission self df h d res self' h' :
  h !! df = Some d →
  NoDup (df_index d) →
  generate_signals talib_MACD self df h = Ok (res, self', h') →
  ∃ r macd sig Signal,
    h' !! res = Some r
    ∧ df_columns r !! "MACD" = Some (FloatCol macd)
    ∧ df_columns r !! "MACD_Signal" = Some (FloatCol sig)
    ∧ df_columns r !! "Signal" = Some (IntCol Signal)
    ∧ length Signal = length (df_index d)
    ∧ (∀ i, (i < length Signal)%nat → Signal !!! i = emitted macd sig i)
    ∧ (∀ i, (1 ≤ i < length Signal)%nat → defined_at macd sig i = true →
         (Signal !!! i = 1 ↔ cross_up macd sig i = true)
         ∧ (Signal !!! i = -1 ↔ cross_down macd sig i = true))
    ∧ (∀ i j, (i < j < length Signal)%nat →
         Signal !!! i ≠ 0 → Signal !!! j = Signal !!! i →
         (∀ k, (i < k < j)%nat → apart macd sig k) →
         opposite_between Signal i j).
Proof.
  intros Hd Hnd Hgen.
  apply generate_signals_Ok in Hgen
    as (d' & values & m & s & hi & Hd' & Hc & HM & H1 & H2 & H3
        & -> & -> & ->).
  assert (d' = d) as -> by congruence.
  destruct (signal_loop_emitted (df_index d) m s (position self) Hnd)
    as [Hlen Hem].
  set (st := signal_loop (df_index d) m s (position self)) in *.
  exists (signal_frame d m s hi st), m, s, st.1.1.
  split; [by rewrite lookup_insert_eq|].
  split; [apply signal_frame_MACD|].
  split; [apply signal_frame_MACD_Signal|].
  split; [apply signal_frame_Signal|].
  split; [done|]. rewrite Hlen.
  split; [done|]. split.
  - intros i [Hi1 Hi] Hdef. rewrite Hem by done. split.
    + rewrite emitted_1. split; [by intros (_ & _ & ?)|]. by intros.
    + rewrite emitted_m1. split; [by intros (_ & _ & ?)|]. by intros.
  - intros i j [Hij Hj] Hne Heq Hap. unfold opposite_between.
    rewrite Hem in Hne, Heq by lia. rewrite Hem in Heq by lia.
    pose proof (emitted_range m s i) as Hr.
    assert (emitted m s i = 1 ∨ emitted m s i = -1) as [Ei|Ei].
    { set_solver. }
    + rewrite Ei in Heq.
      destruct (buy_buy_sell m s i j) as (k & Hk & Ek); try done.
      exists k. split; [done|]. rewrite !Hem by lia. by rewrite Ek, Ei.
    + rewrite Ei in Heq.
      destruct (sell_sell_buy m s i j) as (k & Hk & Ek); try done.
      exists k. split; [done|]. rewrite !Hem by lia. by rewrite Ek, Ei.
Qed.


(** C9.  [generate_signals] leaves the caller's frame, and every other
    object that existed before the call, as it was; the value returned is
    a new object that has the rows and the columns of the input, except
    that the five computed columns are set. *)
Theorem generate_signals_frame self df h res self' h' :
  generate_signals talib_MACD self df h = Ok (res, self', h') →
  (res ∉ dom h)
  ∧ h' !! df = h !! df
  ∧ (∀ l, l ∈ dom h → h' !! l = h !! l)
  ∧ ∃ d r,
      h !! df = Some d ∧ h' !! res = Some r
      ∧ df_index r = df_index d
      ∧ (∀ c, c ∉ computed_columns →
           df_columns r !! c = df_columns d !! c)
      ∧ (∀ c, c ∈ computed_columns → is_Some (df_columns r !! c)).
Proof.
  intros Hgen.
  apply generate_signals_Ok in Hgen
    as (d & values & m & s & hi & Hd & Hc & HM & H1 & H2 & H3
        & -> & -> & ->).
  pose proof (is_fresh (dom h)) as Hfresh.
  assert (Hold : ∀ l, l ∈ dom h →
    <[fresh (dom h) := signal_frame d m s hi
        (signal_loop (df_index d) m s (position self))]> h !! l = h !! l).
  { intros l Hl. apply lookup_insert_ne. by intros <-. }
  split; [done|]. split.
  { apply Hold. apply elem_of_dom. by rewrite Hd. }
  split; [done|].
  eexists d, _. split; [done|]. split; [by rewrite lookup_insert_eq|].
  split; [done|]. split; [apply signal_frame_other|].
  intros c Hc'. unfold computed_columns in Hc'.
  repeat (apply elem_of_cons in Hc' as [->|Hc']);
    [rewrite signal_frame_MACD | rewrite signal_frame_MACD_Signal
    | rewrite signal_frame_MACD_Histogram | rewrite signal_frame_Signal
    | rewrite signal_frame_Position | by apply elem_of_nil in Hc']; done.
Qed.

(** C10.  Two strategy objects with the same three periods and any
    carried state ([position], [last_signal]), given the same frame in the
    same heap, both fail with the same exception or both return, at the
    same new reference, frames with the same rows that agree on every
    column other than [Position]; in particular on [Signal]. *)
Theorem signal_independent_of_state fast slow signal
    pos1 last1 pos2 last2 df h :
  match generate_signals talib_MACD
          (mkMACDStrategy fast slow signal pos1 last1) df h,
        generate_signals talib_MACD
          (mkMACDStrategy fast slow signal pos2 last2) df h with
  | Ok (res1, _, h1), Ok (res2, _, h2) =>
      res1 = res2
      ∧ ∃ r1 r2,
          h1 !! res1 = Some r1 ∧ h2 !! res2 = Some r2
          ∧ df_index r1 = df_index r2
          ∧ df_columns r1 !! "Signal" = df_columns r2 !! "Signal"
          ∧ is_Some (df_columns r1 !! "Signal")
          ∧ ∀ c, c ≠ "Position" → df_columns r1 !! c = df_columns r2 !! c
  | Raise e1, Raise e2 => e1 = e2
  | _, _ => False
  end.
Proof.
  unfold generate_signals, calculate_macd, copy, getitem. simpl.
  destruct (h !! df) as [d|]; [|done].
  destruct (df_columns d !! "Close") as [[values|]|]; simpl; try done.
  destruct (talib_MACD values fast slow signal) as [[[m s] hi]|];
    simpl; [|done].
  unfold pd_Series. repeat case_decide; simpl; try done.
  unfold float_values. simpl.
  pose proof (signal_loop_Signal_indep (df_index d) m s pos1 pos2) as HS.
  destruct (signal_loop (df_index d) m s pos1) as [[S1 P1] p1].
  destruct (signal_loop (df_index d) m s pos2) as [[S2 P2] p2].
  simpl in HS. subst S2.
  split; [done|]. eexists _, _.
  split; [by rewrite lookup_insert_eq|].
  split; [by rewrite lookup_insert_eq|].
  split; [done|]. unfold setitem. simpl.
  split; [by simplify_map_eq|]. split; [by simplify_map_eq|].
  intros c Hc. by rewrite !(lookup_insert_ne _ "Position") by done.
Qed.
End SignalClaims.

(** ** The claims on sample series, with the indicator of TA-Lib *)

(** The frame returned for [closes_touch]: the line rises above its signal
    line at row 9, meets it exactly at row 10 and rises again at row 11. *)
Lemma sample_run_touch :
  ∃ res self' h' r,
    sample_run closes_touch = Ok (res, self', h')
    ∧ h' !! res = Some r
    ∧ df_columns r !! "MACD"
      = Some (FloatCol ([NaN; NaN; NaN; NaN; NaN; NaN; NaN; NaN]
                        ++ (of_Z <$> [0; 4; 2; 4])))
    ∧ df_columns r !! "MACD_Signal"
      = Some (FloatCol ([NaN; NaN; NaN; NaN; NaN; NaN; NaN; NaN]
                        ++ (of_Z <$> [0; 2; 2; 3])))
    ∧ df_columns r !! "Signal"
      = Some (IntCol [0; 0; 0; 0; 0; 0; 0; 0; 0; 1; 0; 1]).
Proof.
  eexists _, _, _, _.
  split; [vm_compute; reflexivity|].
  split; [vm_compute; reflexivity|].
  split; [vm_compute; reflexivity|].
  split; vm_compute; reflexivity.
Qed.

(** C1 fails on [closes_touch]: row 11 emits Buy on an upward cross although
    the previous non-hold emission, at row 9, is a Buy, and no Sell lies
    between the two. *)
Lemma signal_emission_repeats_buy :
  ∃ res self' h' r macd sig Signal,
    sample_run closes_touch = Ok (res, self', h')
    ∧ h' !! res = Some r
    ∧ df_columns r !! "MACD" = Some (FloatCol macd)
    ∧ df_columns r !! "MACD_Signal" = Some (FloatCol sig)
    ∧ df_columns r !! "Signal" = Some (IntCol Signal)
    ∧ defined_at macd sig 11 = true
    ∧ cross_up macd sig 11 = true
    ∧ Signal !!! 11%nat = 1
    ∧ prev_nonhold Signal 11 = 1
    ∧ ¬ claimed_emission macd sig Signal 11
    ∧ Signal !!! 9%nat = 1
    ∧ ¬ opposite_between Signal 9 11.
Proof.
  eexists _, _, _, _, _, _, _.
  split; [vm_compute; reflexivity|].
  split; [vm_compute; reflexivity|].
  split; [vm_compute; reflexivity|].
  split; [vm_compute; reflexivity|].
  split; [vm_compute; reflexivity|].
  split; [vm_compute; reflexivity|].
  split; [vm_compute; reflexivity|].
  split; [vm_compute; reflexivity|].
  split; [vm_compute; reflexivity|].
  split.
  { intros [[H _] _]. assert (Hc : (1:Z) ≠ 1); [|by apply Hc].
    apply H. vm_compute. reflexivity. }
  split; [vm_compute; reflexivity|].
  intros (k & Hk & Hsig). assert (k = 10%nat) as -> by lia.
  vm_compute in Hsig. discriminate.
Qed.

Lemma signal_emission_witness :
  sample_run closes_touch = Ok (sample_out closes_touch)
  ∧ ∃ r Signal,
      (sample_out closes_touch).2 !! (sample_out closes_touch).1.1 = Some r
      ∧ df_columns r !! "Signal" = Some (IntCol Signal)
      ∧ length Signal = 12%nat.
Proof.
  split; [vm_compute; reflexivity|].
  destruct (signal_emission talib.MACD sample_strategy 0%nat
              (sample_heap closes_touch) (frame_of_closes closes_touch)
              (sample_out closes_touch).1.1 (sample_out closes_touch).1.2
              (sample_out closes_touch).2)
    as (r & macd & sig & Signal & Hr & _ & _ & HS & Hlen & _).
  - vm_compute. reflexivity.
  - refine (bool_decide_unpack _ _). vm_compute. exact I.
  - vm_compute. reflexivity.
  - exists r, Signal. split; [exact Hr|]. split; [exact HS|]. exact Hlen.
Defined.



Lemma generate_signals_frame_witness :
  sample_run closes_touch = Ok (sample_out closes_touch)
  ∧ (sample_out closes_touch).2 !! 0%nat = sample_heap closes_touch !! 0%nat.
Proof.
  split; [vm_compute; reflexivity|].
  destruct (generate_signals_frame talib.MACD sample_strategy 0%nat
              (sample_heap closes_touch)
              (sample_out closes_touch).1.1 (sample_out closes_touch).1.2
              (sample_out closes_touch).2) as (_ & H & _).
  - vm_compute. reflexivity.
  - exact H.
Defined.

(** ** The indicator of TA-Lib *)

Module talib_facts.
Import talib.

Lemma float_lift2_defined f x y :
  defined x → defined y → defined (float_lift2 f x y).
Proof. by destruct x, y. Qed.

Lemma PER_TO_K_defined per : defined (PER_TO_K per).
Proof. done. Qed.

Lemma fsum_defined xs : Forall defined xs → defined (fsum xs).
Proof.
  unfold fsum. generalize (of_Z 0) (eq_refl : defined (of_Z 0)).
  induction xs as [|x xs IH]; intros acc Hacc Hxs; [done|].
  inversion Hxs; subst. simpl. apply IH; [|done].
  by apply float_lift2_defined.
Qed.

Lemma length_ema_run k prev xs : length (ema_run k prev xs) = length xs.
Proof.
  revert prev. induction xs as [|x xs IH]; intros prev; [done|].
  simpl. by rewrite IH.
Qed.

Lemma ema_run_defined k prev xs :
  defined k → defined prev → Forall defined xs →
  Forall defined (ema_run k prev xs).
Proof.
  intros Hk. revert prev. induction xs as [|x xs IH]; intros prev Hp Hxs;
    [constructor|].
  inversion Hxs; subst. simpl.
  assert (defined (fadd (fmul (fsub x prev) k) prev)).
  { repeat apply float_lift2_defined; done. }
  constructor; [done|]. by apply IH.
Qed.

Lemma ema_run_app k prev xs ys :
  ∃ rest, ema_run k prev (xs ++ ys) = ema_run k prev xs ++ rest.
Proof.
  revert prev. induction xs as [|x xs IH]; intros prev.
  - by exists (ema_run k prev ys).
  - simpl. destruct (IH (fadd (fmul (fsub x prev) k) prev)) as [rest ->].
    by exists rest.
Qed.

Lemma length_INT_EMA start xs period k :
  length (INT_EMA start xs period k)
  = (length xs - Nat.max start (period - 1))%nat.
Proof.
  unfold INT_EMA. case_decide; simpl; [lia|].
  rewrite length_ema_run, length_drop. lia.
Qed.

Lemma INT_EMA_defined start xs period k :
  defined k → Forall defined xs →
  Forall defined (INT_EMA start xs period k).
Proof.
  intros Hk Hxs. unfold INT_EMA. case_decide; [constructor|].
  assert (defined (fdiv (fsum (take period
            (drop (Nat.max start (period - 1) - (period - 1)) xs)))
            (of_Z (Z.of_nat period)))).
  { apply float_lift2_defined; [|done]. apply fsum_defined.
    by apply Forall_take, Forall_drop. }
  constructor; [done|]. apply ema_run_defined; try done.
  by apply Forall_drop.
Qed.

Lemma INT_EMA_app start xs ys period k :
  (Nat.max start (period - 1) < length xs)%nat →
  ∃ rest,
    INT_EMA start (xs ++ ys) period k = INT_EMA start xs period k ++ rest.
Proof.
  intros Hlen. unfold INT_EMA. rewrite length_app.
  rewrite !decide_False by lia.
  set (s := Nat.max start (period - 1)) in *.
  rewrite drop_app_le by lia.
  rewrite take_app_le by (rewrite length_drop; lia).
  rewrite (drop_app_le xs ys (S s)) by lia.
  destruct (ema_run_app k
    (fdiv (fsum (take period (drop (s - (period - 1)) xs)))
          (of_Z (Z.of_nat period)))
    (drop (S s) xs) ys) as [rest ->].
  by exists rest.
Qed.

Lemma length_zip_with_eq {A B C} (f : A → B → C) xs ys :
  length xs = length ys → length (zip_with f xs ys) = length xs.
Proof. intros H. rewrite length_zip_with. lia. Qed.

Lemma zip_with_app_ex {A B C} (f : A → B → C) xs xs' ys ys' :
  length xs = length ys →
  ∃ rest, zip_with f (xs ++ xs') (ys ++ ys') = zip_with f xs ys ++ rest.
Proof.
  intros H. exists (zip_with f xs' ys'). by apply zip_with_app.
Qed.

Lemma Forall_zip_with_fsub xs ys :
  Forall defined xs → Forall defined ys →
  Forall defined (zip_with fsub xs ys).
Proof.
  intros Hxs. revert ys. induction Hxs as [|x xs Hx Hxs IH];
    intros ys Hys; [constructor|].
  destruct Hys as [|y ys Hy Hys]; [constructor|].
  simpl. constructor; [by apply float_lift2_defined|by apply IH].
Qed.

(** The three outputs of [TA_INT_MACD], for periods in range. *)
Section INT_MACD.
Variables (fast slow signal : Z).
Hypothesis Hfast : 1 ≤ fast.
Hypothesis Hslow : 1 ≤ slow.
Hypothesis Hsignal : 1 ≤ signal.

Let L := MACD_Lookback fast slow signal.

(** Linear arithmetic over the three look-back lengths. *)
Ltac periods_lia :=
  replace (Z.to_nat slow - 1)%nat with (Z.to_nat (slow - 1)) in * by lia;
  replace (Z.to_nat fast - 1)%nat with (Z.to_nat (fast - 1)) in * by lia;
  replace (Z.to_nat signal - 1)%nat
    with (Z.to_nat (signal - 1)) in * by lia;
  first
    [ assert (Z.to_nat (slow - 1) ≤ Z.to_nat (fast - 1))%nat by lia
    | assert (Z.to_nat (fast - 1) ≤ Z.to_nat (slow - 1))%nat by lia ];
  generalize dependent (Z.to_nat (slow - 1));
  generalize dependent (Z.to_nat (fast - 1));
  generalize dependent (Z.to_nat (signal - 1));
  intros; lia.

Lemma length_INT_MACD xs :
  let '(m, s, h) := INT_MACD xs fast slow signal in
  length m = (length xs - L)%nat
  ∧ length s = (length xs - L)%nat
  ∧ length h = (length xs - L)%nat.
Proof.
  unfold INT_MACD, L, MACD_Lookback.
  destruct (slow <? fast) eqn:E;
    [apply Z.ltb_lt in E; rewrite Z.max_r by lia
    |apply Z.ltb_ge in E; rewrite Z.max_l by lia].
  all: case_decide as Hn; simpl; [repeat split; lia|].
  all: repeat split;
    repeat first [ rewrite length_zip_with | rewrite length_drop
                 | rewrite length_INT_EMA ];
    periods_lia.
Qed.

Lemma INT_MACD_defined xs :
  Forall defined xs →
  let '(m, s, h) := INT_MACD xs fast slow signal in
  Forall defined m ∧ Forall defined s ∧ Forall defined h.
Proof.
  intros Hxs. unfold INT_MACD.
  destruct (slow <? fast); case_decide; simpl;
    try (repeat split; constructor).
  all: repeat split;
    repeat first [ apply Forall_zip_with_fsub | apply Forall_drop
                 | apply INT_EMA_defined | done ].
Qed.

Lemma INT_MACD_app xs ys :
  (L < length xs)%nat →
  let '(m, s, h) := INT_MACD xs fast slow signal in
  let '(m', s', h') := INT_MACD (xs ++ ys) fast slow signal in
  ∃ rm rs rh, m' = m ++ rm ∧ s' = s ++ rs ∧ h' = h ++ rh.
Proof.
  unfold L, MACD_Lookback, INT_MACD. intros Hlen.
  rewrite length_app.
  destruct (slow <? fast) eqn:E;
    [apply Z.ltb_lt in E; rewrite Z.max_r in Hlen by lia
    |apply Z.ltb_ge in E; rewrite Z.max_l in Hlen by lia].
  all: rewrite !decide_False by lia; simpl.
  all: match goal with
       | |- context [zip_with fsub (INT_EMA ?a (?l ++ ?l') ?p ?k)
                                   (INT_EMA ?a (?l ++ ?l') ?q ?k')] =>
           destruct (INT_EMA_app a l l' p k) as [r1 E1];
             [periods_lia|];
           destruct (INT_EMA_app a l l' q k') as [r2 E2];
             [periods_lia|];
           rewrite E1, E2;
           destruct (zip_with_app_ex fsub (INT_EMA a l p k) r1
                       (INT_EMA a l q k') r2) as [rd Ed];
           [rewrite !length_INT_EMA; periods_lia|];
           rewrite Ed;
           assert (Hdiff : length (zip_with fsub (INT_EMA a l p k)
                                     (INT_EMA a l q k'))
                     = (length l - a)%nat)
             by (rewrite length_zip_with, !length_INT_EMA; periods_lia);
           set (diff := zip_with fsub (INT_EMA a l p k)
                                      (INT_EMA a l q k')) in *
       end.
  all: match goal with
       | |- context [INT_EMA 0 (?d ++ ?rd) ?p ?k] =>
           destruct (INT_EMA_app 0 d rd p k) as [rs Es];
             [periods_lia|];
           rewrite Es, drop_app_le by periods_lia;
           destruct (zip_with_app_ex fsub
                       (drop (Z.to_nat (signal - 1)) d) rd
                       (INT_EMA 0 d p k) rs) as [rh Eh];
           [rewrite length_drop, length_INT_EMA; periods_lia|];
           rewrite Eh; by exists rd, rs, rh
       end.
Qed.
End INT_MACD.

Lemma check_begidx1_defined xs :
  Forall defined xs → check_begidx1 xs = 0%nat.
Proof. intros [|x xs' Hx _]; [done|]. simpl. by rewrite Hx. Qed.

Lemma check_begidx1_le xs : (check_begidx1 xs ≤ length xs)%nat.
Proof.
  induction xs as [|x xs IH]; simpl; [lia|].
  destruct (isna x), xs; simpl in *; lia.
Qed.

Lemma check_begidx1_app xs ys :
  Exists defined xs →
  check_begidx1 (xs ++ ys) = check_begidx1 xs
  ∧ (check_begidx1 xs < length xs)%nat.
Proof.
  induction 1 as [x xs Hx|x xs Hex [IH1 IH2]]; simpl.
  - rewrite Hx. lia.
  - destruct (isna x); [|lia].
    destruct xs as [|x' xs]; [by apply Exists_nil in Hex|].
    simpl in *. rewrite IH1. lia.
Qed.

Lemma check_begidx1_all_nan xs ys :
  Forall (λ x, isna x = true) xs →
  (length xs ≤ check_begidx1 (xs ++ ys) + 1)%nat.
Proof.
  induction 1 as [|x xs Hx Hxs IH]; simpl; [lia|].
  rewrite Hx. destruct (xs ++ ys) as [|z zs] eqn:E.
  - apply app_eq_nil in E as [-> _]. simpl. lia.
  - set (c := check_begidx1 (z :: zs)) in *. lia.
Qed.

Lemma defined_or_all_nan xs :
  Exists defined xs ∨ Forall (λ x, isna x = true) xs.
Proof.
  induction xs as [|x xs [IH|IH]].
  - right. constructor.
  - left. by apply Exists_cons_tl.
  - destruct (isna x) eqn:E.
    + right. by constructor.
    + left. by apply Exists_cons_hd.
Qed.

Lemma length_pad len lookback out :
  (len ≤ lookback + length out)%nat →
  length (pad len lookback out) = len.
Proof.
  intros H. unfold pad.
  rewrite length_take, length_app, length_replicate. lia.
Qed.

Lemma pad_all_nan len lookback out :
  (len ≤ lookback)%nat → pad len lookback out = replicate len NaN.
Proof.
  intros H. unfold pad.
  rewrite take_app_le by (rewrite length_replicate; lia).
  rewrite take_replicate. f_equal. lia.
Qed.

Lemma pad_exact len lookback out :
  (lookback + length out = len)%nat →
  pad len lookback out = replicate lookback NaN ++ out.
Proof.
  intros H. unfold pad. apply take_ge.
  rewrite length_app, length_replicate. lia.
Qed.

Lemma pad_isna len lookback out i :
  (i < len)%nat → (len ≤ lookback + length out)%nat →
  Forall defined out →
  isna (pad len lookback out !!! i) = bool_decide (i < lookback)%nat.
Proof.
  intros Hi Hlen Hout. unfold pad.
  rewrite lookup_total_take_lt by done.
  destruct (decide (i < lookback)%nat) as [Hlt|Hge].
  - rewrite bool_decide_eq_true_2 by done.
    rewrite lookup_total_app_l by (rewrite length_replicate; lia).
    by rewrite lookup_total_replicate_2.
  - rewrite bool_decide_eq_false_2 by done.
    rewrite lookup_total_app_r by (rewrite length_replicate; lia).
    rewrite length_replicate.
    destruct (lookup_lt_is_Some_2 out (i - lookback)) as [x Hx]; [lia|].
    rewrite (list_lookup_total_correct _ _ _ Hx).
    rewrite Forall_lookup in Hout. by apply (Hout _ _ Hx).
Qed.

Lemma period_ok_spec lo per :
  period_ok lo per = true ↔ lo ≤ per ≤ 100000.
Proof.
  unfold period_ok. rewrite andb_true_iff, !Z.leb_le. lia.
Qed.

(** The parameter check of [TA_MACD] is all that can fail. *)
Lemma MACD_periods_result real fast slow signal :
  (2 ≤ fast ≤ 100000 ∧ 2 ≤ slow ≤ 100000 ∧ 1 ≤ signal ≤ 100000
   ∧ is_Ok (MACD_periods real fast slow signal))
  ∨ (¬ (2 ≤ fast ≤ 100000 ∧ 2 ≤ slow ≤ 100000 ∧ 1 ≤ signal ≤ 100000)
     ∧ MACD_periods real fast slow signal = Raise TA_BAD_PARAM).
Proof.
  unfold MACD_periods.
  destruct (period_ok 2 fast) eqn:E1; [|right];
    [destruct (period_ok 2 slow) eqn:E2; [|right];
     [destruct (period_ok 1 signal) eqn:E3; [left|right]|]|]; simpl.
  - apply period_ok_spec in E1, E2, E3. repeat split; try lia.
    destruct (INT_MACD _ _ _ _) as [[m s] h]. by eexists.
  - split; [|done]. intros (_ & _ & H).
    apply period_ok_spec in H. congruence.
  - split; [|done]. intros (_ & H & _).
    apply period_ok_spec in H. congruence.
  - split; [|done]. intros (H & _).
    apply period_ok_spec in H. congruence.
Qed.

Lemma MACD_periods_Ok real fast slow signal out :
  MACD_periods real fast slow signal = Ok out →
  (2 ≤ fast ≤ 100000 ∧ 2 ≤ slow ≤ 100000 ∧ 1 ≤ signal ≤ 100000)
  ∧ out =
      let b := check_begidx1 real in
      let k := (b + MACD_Lookback fast slow signal)%nat in
      let t := INT_MACD (drop b real) fast slow signal in
      (pad (length real) k t.1.1, pad (length real) k t.1.2,
       pad (length real) k t.2).
Proof.
  intros H.
  destruct (MACD_periods_result real fast slow signal) as [(H1 & H2 & H3 & _)|[_ E]];
    [|congruence].
  split; [done|]. unfold MACD_periods in H.
  apply period_ok_spec in H1, H2. apply (period_ok_spec 1) in H3.
  rewrite H1, H2, H3 in H. simpl in H. cbv zeta.
  destruct (INT_MACD _ _ _ _) as [[m s] h]. simpl. congruence.
Qed.

Lemma MACD_periods_length_preserving : length_preserving MACD_periods.
Proof.
  intros xs fast slow signal m s h H.
  apply MACD_periods_Ok in H as [(H1 & H2 & H3) [= -> -> ->]].
  pose proof (check_begidx1_le xs) as Hb.
  pose proof (length_INT_MACD fast slow signal
                ltac:(lia) ltac:(lia) ltac:(lia)
                (drop (check_begidx1 xs) xs)) as Hlen.
  destruct (INT_MACD _ _ _ _) as [[m s] h]. simpl.
  destruct Hlen as (Hm & Hs & Hh). rewrite length_drop in *.
  repeat split; apply length_pad; lia.
Qed.

(** On prices that are all numbers the first [max(fast, slow) + signal - 2]
    values of each line are not-a-number and the later ones are numbers. *)
Lemma MACD_periods_warmup xs fast slow signal m s h i :
  Forall defined xs →
  MACD_periods xs fast slow signal = Ok (m, s, h) →
  (i < length xs)%nat →
  isna (m !!! i) = bool_decide (Z.of_nat i < Z.max fast slow + signal - 2)
  ∧ isna (s !!! i) = bool_decide (Z.of_nat i < Z.max fast slow + signal - 2)
  ∧ isna (h !!! i) = bool_decide (Z.of_nat i < Z.max fast slow + signal - 2).
Proof.
  intros Hxs H Hi.
  apply MACD_periods_Ok in H as [(H1 & H2 & H3) [= -> -> ->]].
  rewrite (check_begidx1_defined xs Hxs). simpl. rewrite drop_0.
  pose proof (length_INT_MACD fast slow signal
                ltac:(lia) ltac:(lia) ltac:(lia) xs) as Hlen.
  pose proof (INT_MACD_defined fast slow signal xs Hxs) as Hdef.
  destruct (INT_MACD _ _ _ _) as [[m s] h]. simpl.
  destruct Hlen as (Hm & Hs & Hh). destruct Hdef as (Dm & Ds & Dh).
  assert (HL : Z.of_nat (MACD_Lookback fast slow signal)
               = Z.max fast slow + signal - 2).
  { unfold MACD_Lookback. lia. }
  assert (Hb : bool_decide (Z.of_nat i < Z.max fast slow + signal - 2)
               = bool_decide (i < MACD_Lookback fast slow signal)%nat).
  { apply bool_decide_ext. lia. }
  rewrite Hb. repeat split; apply pad_isna; try done; lia.
Qed.

Lemma take_pad n len lookback out :
  (n ≤ len)%nat →
  take n (pad len lookback out) = pad n lookback out.
Proof.
  intros H. unfold pad. rewrite take_take. f_equal. lia.
Qed.

Lemma pad_app n lookback out rest :
  (n ≤ lookback + length out)%nat →
  pad n lookback (out ++ rest) = pad n lookback out.
Proof.
  intros H. unfold pad. rewrite app_assoc.
  rewrite take_app_le; [done|].
  rewrite length_app, length_replicate. lia.
Qed.

(** The indicator is causal. *)
Lemma MACD_periods_causal : causal MACD_periods.
Proof.
  intros xs ys fast slow signal.
  destruct (MACD_periods_result (xs ++ ys) fast slow signal)
    as [(H1 & H2 & H3 & [out' E'])|[Hbad E']].
  2:{ rewrite E'. simpl.
      destruct (MACD_periods_result xs fast slow signal) as [(?&?&?&_)|[_ E]];
        [|done].
      destruct Hbad. done. }
  destruct (MACD_periods_result xs fast slow signal) as [(_&_&_&[out E])|[Hbad _]];
    [|by destruct Hbad].
  rewrite E, E'. simpl. f_equal.
  apply MACD_periods_Ok in E as [_ ->]. apply MACD_periods_Ok in E' as [_ ->].
  unfold take3. simpl. rewrite length_app.
  rewrite !take_pad by lia.
  set (L := MACD_Lookback fast slow signal).
  assert (HL : (1 ≤ L)%nat) by (unfold L, MACD_Lookback; lia).
  destruct (defined_or_all_nan xs) as [Hex|Hnan].
  - destruct (check_begidx1_app xs ys Hex) as [-> Hb].
    set (b := check_begidx1 xs) in *.
    rewrite drop_app_le by lia.
    pose proof (length_INT_MACD fast slow signal
                  ltac:(lia) ltac:(lia) ltac:(lia) (drop b xs)) as Hlen.
    pose proof (INT_MACD_app fast slow signal
                  ltac:(lia) ltac:(lia) ltac:(lia) (drop b xs) ys) as Happ.
    fold L in Hlen, Happ. rewrite length_drop in Hlen, Happ.
    destruct (INT_MACD (drop b xs) _ _ _) as [[m s] h].
    destruct (INT_MACD (drop b xs ++ ys) _ _ _) as [[m' s'] h'].
    simpl. destruct Hlen as (Hm & Hs & Hh).
    destruct (decide (L < length xs - b)%nat) as [Hlong|Hshort].
    + destruct (Happ Hlong) as (rm & rs & rh & -> & -> & ->).
      by rewrite !pad_app by lia.
    + by rewrite !pad_all_nan by lia.
  - pose proof (check_begidx1_all_nan xs ys Hnan) as Hb'.
    pose proof (check_begidx1_all_nan xs [] Hnan) as Hb.
    rewrite app_nil_r in Hb.
    by rewrite !pad_all_nan by lia.
Qed.

(** The wrapper: periods that are C integers, with the defaults filled in. *)
Lemma c_int_spec z : c_int z = true ↔ -2147483648 ≤ z ≤ 2147483647.
Proof. unfold c_int. rewrite andb_true_iff, !Z.leb_le. lia. Qed.

Lemma opt_period_in_range default lo per :
  lo ≤ per ≤ 100000 → -2147483648 < lo → opt_period default per = per.
Proof.
  intros H Hlo. unfold opt_period, TA_INTEGER_DEFAULT.
  destruct (per =? -2147483648) eqn:E; [|done]. apply Z.eqb_eq in E. lia.
Qed.

Lemma opt_period_ge default per :
  -2147483648 ≤ default → c_int per = true → per ≤ opt_period default per.
Proof.
  intros Hd Hc. apply c_int_spec in Hc. unfold opt_period, TA_INTEGER_DEFAULT.
  destruct (per =? -2147483648) eqn:E; [|lia]. apply Z.eqb_eq in E. lia.
Qed.

Lemma MACD_cases real fast slow signal :
  (c_int fast = true ∧ c_int slow = true ∧ c_int signal = true
   ∧ MACD real fast slow signal
     = MACD_periods real (opt_period 12 fast) (opt_period 26 slow)
                    (opt_period 9 signal))
  ∨ (¬ (c_int fast = true ∧ c_int slow = true ∧ c_int signal = true)
     ∧ MACD real fast slow signal = Raise OverflowError).
Proof.
  unfold MACD.
  destruct (c_int fast), (c_int slow), (c_int signal); simpl;
    first [ by left | right; split; [intros (? & ? & ?); done|done] ].
Qed.

Lemma MACD_in_range real fast slow signal :
  2 ≤ fast ≤ 100000 → 2 ≤ slow ≤ 100000 → 1 ≤ signal ≤ 100000 →
  MACD real fast slow signal = MACD_periods real fast slow signal.
Proof.
  intros Hf Hs Hg. unfold MACD.
  rewrite (proj2 (c_int_spec fast)), (proj2 (c_int_spec slow)),
    (proj2 (c_int_spec signal)) by lia. simpl.
  by rewrite (opt_period_in_range 12 2 fast), (opt_period_in_range 26 2 slow),
    (opt_period_in_range 9 1 signal) by lia.
Qed.

Lemma MACD_Ok real fast slow signal out :
  MACD real fast slow signal = Ok out →
  c_int fast = true ∧ c_int slow = true ∧ c_int signal = true
  ∧ MACD_periods real (opt_period 12 fast) (opt_period 26 slow)
                 (opt_period 9 signal) = Ok out.
Proof.
  intros H.
  destruct (MACD_cases real fast slow signal) as [(?&?&?&E)|[_ E]];
    rewrite E in H; [done|discriminate].
Qed.

Lemma MACD_length_preserving : length_preserving MACD.
Proof.
  intros xs fast slow signal m s h H.
  apply MACD_Ok in H as (_ & _ & _ & H).
  by apply MACD_periods_length_preserving in H.
Qed.

(** The indicator is causal. *)
Lemma MACD_causal : causal MACD.
Proof.
  intros xs ys fast slow signal.
  destruct (MACD_cases xs fast slow signal) as [(H1&H2&H3&E)|[Hn E]];
    destruct (MACD_cases (xs ++ ys) fast slow signal)
      as [(H1'&H2'&H3'&E')|[Hn' E']]; rewrite E, E'; try done.
  - apply MACD_periods_causal.
  - by destruct Hn'.
  - by destruct Hn.
Qed.
End talib_facts.

(** ** Warm-up of the indicator (C2) *)

(** C2 fails for [fast = 3], [slow = 7], [signal = 3]: the specification
    has rows 0..8 undefined, and row 8 of each line is a number. *)
Lemma warmup_one_row_shorter :
  ∃ m s h,
    calculate_macd talib.MACD sample_strategy
      (mkSeries (Z.of_nat <$> seq 0 12) (FloatCol (of_Z <$> closes_touch)))
    = Ok (m, s, h)
    ∧ Z.max 3 7 + 3 - 1 = 9
    ∧ isna (float_values m !!! 8%nat) = false
    ∧ isna (float_values s !!! 8%nat) = false
    ∧ isna (float_values h !!! 8%nat) = false.
Proof.
  eexists _, _, _.
  split; [vm_compute; reflexivity|].
  repeat split; vm_compute; reflexivity.
Qed.

Lemma bounded_defined x : bounded x → defined x.
Proof. by destruct x. Qed.

(** C2, as the code has it.  For periods that the indicator library accepts
    (fast and slow from 2, signal from 1, all up to 100000) and close prices
    that are all numbers of magnitude at most [10^300], the three lines have
    one value per input row; the value at row [i] is not-a-number exactly
    when [i < max(fast, slow) + signal - 2], and a number at every later
    row. *)
Theorem calculate_macd_warmup self prices values :
  s_values prices = FloatCol values →
  length (s_index prices) = length values →
  Forall bounded values →
  2 ≤ fast_period self ≤ 100000 →
  2 ≤ slow_period self ≤ 100000 →
  1 ≤ signal_period self ≤ 100000 →
  ∃ m s h,
    calculate_macd talib.MACD self prices
    = Ok (mkSeries (s_index prices) (FloatCol m),
          mkSeries (s_index prices) (FloatCol s),
          mkSeries (s_index prices) (FloatCol h))
    ∧ length m = length values
    ∧ length s = length values
    ∧ length h = length values
    ∧ ∀ i, (i < length values)%nat →
        let warm :=
          bool_decide (Z.of_nat i < Z.max (fast_period self)
                                          (slow_period self)
                                    + signal_period self - 2) in
        isna (m !!! i) = warm ∧ isna (s !!! i) = warm
        ∧ isna (h !!! i) = warm.
Proof.
  intros Hv Hlen Hbnd Hf Hs Hg.
  assert (Hdef : Forall defined values)
    by (eapply Forall_impl; [exact Hbnd|apply bounded_defined]).
  pose proof (talib_facts.MACD_in_range values _ _ _ Hf Hs Hg) as Ein.
  destruct (talib_facts.MACD_periods_result values (fast_period self)
              (slow_period self) (signal_period self))
    as [(_ & _ & _ & [[[m s] h] E])|[Hbad _]]; [|by destruct Hbad].
  destruct (talib_facts.MACD_periods_length_preserving _ _ _ _ _ _ _ E)
    as (Lm & Ls & Lh).
  exists m, s, h. split.
  { apply calculate_macd_Ok. exists values, m, s, h.
    repeat split; try done; congruence. }
  repeat split; try done; intros;
    by apply (talib_facts.MACD_periods_warmup values _ _ _ m s h i).
Qed.

Lemma calculate_macd_warmup_witness :
  ∃ m s h,
    calculate_macd talib.MACD sample_strategy
      (mkSeries (Z.of_nat <$> seq 0 12) (FloatCol (of_Z <$> closes_touch)))
    = Ok (mkSeries (Z.of_nat <$> seq 0 12) (FloatCol m),
          mkSeries (Z.of_nat <$> seq 0 12) (FloatCol s),
          mkSeries (Z.of_nat <$> seq 0 12) (FloatCol h))
    ∧ length m = 12%nat.
Proof.
  destruct (calculate_macd_warmup sample_strategy
              (mkSeries (Z.of_nat <$> seq 0 12)
                        (FloatCol (of_Z <$> closes_touch)))
              (of_Z <$> closes_touch))
    as (m & s & h & E & Lm & _).
  - reflexivity.
  - reflexivity.
  - repeat constructor; vm_compute; discriminate.
  - vm_compute. split; discriminate.
  - vm_compute. split; discriminate.
  - vm_compute. split; discriminate.
  - exists m, s, h. split; [exact E|exact Lm].
Defined.

(** ** Parameter checks (C6) *)

(** C6 fails: the constructor accepts any three integers, and a strategy
    with [fast_period >= slow_period] runs. *)
Lemma init_accepts_any_periods :
  is_Ok (__init__ 26 12 9)
  ∧ is_Ok (__init__ 0 (-5) 0)
  ∧ ∃ self out,
      __init__ 7 3 3 = Ok self
      ∧ slow_period self ≤ fast_period self
      ∧ generate_signals talib.MACD self 0%nat (sample_heap closes_touch)
        = Ok out.
Proof.
  split; [by eexists|]. split; [by eexists|].
  eexists _, _. split; [reflexivity|].
  split; [vm_compute; discriminate|].
  vm_compute. reflexivity.
Qed.

(** C6, as the code has it.  Constructing a strategy never fails: the three
    periods are stored as given, with position 0 and no last signal.  Running
    it on a frame whose [Close] column holds one float per row fails, before
    any row is processed, in two cases only.  A period that does not fit a C
    integer raises [OverflowError].  Otherwise a period equal to -2147483648
    stands for the library's default (12, 26 and 9), and the run fails with
    the library's bad-parameter error exactly when a period is then outside
    the range that the library accepts (fast or slow below 2, signal below
    1, any above 100000).  In every other case it returns, also when
    [fast_period >= slow_period]. *)
Theorem parameters_checked_by_indicator fast slow signal df h d values :
  h !! df = Some d →
  df_columns d !! "Close" = Some (FloatCol values) →
  length values = length (df_index d) →
  ∃ self,
    __init__ fast slow signal = Ok self
    ∧ self = mkMACDStrategy fast slow signal 0 None
    ∧ if decide (-2147483648 ≤ fast ≤ 2147483647
                 ∧ -2147483648 ≤ slow ≤ 2147483647
                 ∧ -2147483648 ≤ signal ≤ 2147483647)
      then
        if decide (2 ≤ talib.opt_period 12 fast ≤ 100000
                   ∧ 2 ≤ talib.opt_period 26 slow ≤ 100000
                   ∧ 1 ≤ talib.opt_period 9 signal ≤ 100000)
        then is_Ok (generate_signals talib.MACD self df h)
        else generate_signals talib.MACD self df h = Raise TA_BAD_PARAM
      else generate_signals talib.MACD self df h = Raise OverflowError.
Proof.
  intros Hd Hc Hlen. eexists. split; [reflexivity|]. split; [reflexivity|].
  assert (Hrun : ∀ e, talib.MACD values fast slow signal = Raise e →
                 generate_signals talib.MACD
                   (mkMACDStrategy fast slow signal 0 None) df h = Raise e).
  { intros e E. unfold generate_signals, copy, getitem, calculate_macd.
    rewrite Hd, Hc. simpl. by rewrite E. }
  destruct (talib_facts.MACD_cases values fast slow signal)
    as [(C1 & C2 & C3 & Ec)|[Hn Ec]].
  - apply talib_facts.c_int_spec in C1, C2, C3.
    rewrite decide_True by done.
    destruct (talib_facts.MACD_periods_result values
                (talib.opt_period 12 fast) (talib.opt_period 26 slow)
                (talib.opt_period 9 signal))
      as [(H1 & H2 & H3 & [[[m s] hi] E])|[Hbad E]].
    + rewrite decide_True by done. rewrite <- Ec in E.
      destruct (talib_facts.MACD_length_preserving _ _ _ _ _ _ _ E)
        as (Lm & Ls & Lh).
      eexists (_, _, _). apply generate_signals_Ok.
      exists d, values, m, s, hi. simpl.
      repeat split; try done; congruence.
    + rewrite decide_False by done. apply Hrun. by rewrite Ec.
  - rewrite decide_False; [by apply Hrun|].
    intros (C1 & C2 & C3). apply Hn.
    by rewrite !talib_facts.c_int_spec.
Qed.

Lemma parameters_checked_by_indicator_witness :
  ∃ self,
    __init__ 7 3 3 = Ok self
    ∧ is_Ok (generate_signals talib.MACD self 0%nat
               (sample_heap closes_touch)).
Proof.
  destruct (parameters_checked_by_indicator 7 3 3 0%nat
              (sample_heap closes_touch) (frame_of_closes closes_touch)
              (of_Z <$> closes_touch))
    as (self & E & _ & H).
  - reflexivity.
  - reflexivity.
  - reflexivity.
  - exists self. split; [exact E|]. exact H.
Defined.

(** ** Re-running on an extended series (C7) *)

Lemma emitted_agree m s m' s' i :
  (∀ j, (j ≤ i)%nat → m !!! j = m' !!! j ∧ s !!! j = s' !!! j) →
  emitted m s i = emitted m' s' i.
Proof.
  intros H. unfold emitted, defined_at, cross_up, cross_down.
  destruct (H i) as [-> ->]; [lia|].
  destruct (H (i - 1)%nat) as [-> ->]; [lia|]. done.
Qed.

(** C7 fails when the extension repeats a row label of the prefix: the
    writes go by label, so the Buy of the last row of [repeated_label_frame],
    labelled 3, is written to row 3 as well, where the run on the prefix
    alone has a hold. *)
Lemma prefix_rewritten_by_repeated_label :
  take 10 (df_index repeated_label_frame)
  = df_index (frame_of_closes (take 10 closes_touch))
  ∧ df_columns repeated_label_frame !! "Close"
    = Some (FloatCol (of_Z <$> take 10 closes_touch ++ drop 10 closes_touch))
  ∧ ∃ out1 out2,
      generate_signals talib.MACD sample_strategy 0%nat repeated_label_heap
      = Ok out1
      ∧ generate_signals talib.MACD out1.1.2 1%nat out1.2 = Ok out2
      ∧ signal_column (Ok out1)
        = Some (IntCol [0; 0; 0; 0; 0; 0; 0; 0; 0; 1])
      ∧ signal_column (Ok out2)
        = Some (IntCol [0; 0; 0; 1; 0; 0; 0; 0; 0; 1; 0; 1]).
Proof.
  split; [reflexivity|]. split; [vm_compute; reflexivity|].
  eexists _, _. split; [vm_compute; reflexivity|].
  split; [vm_compute; reflexivity|].
  split; vm_compute; reflexivity.
Qed.

Section Prefix.
Variable talib_MACD :
  list float → Z → Z → Z → result (list float * list float * list float).
Hypothesis MACD_causal : causal talib_MACD.
Hypothesis MACD_length : length_preserving talib_MACD.

(** C7, as the code has it.  Let frame [d'] extend frame [d]: the row
    labels and the close prices of [d] are a prefix of those of [d'], whose
    labels are distinct.
    With a causal, length-preserving indicator, after [generate_signals]
    has processed [d], running it on [d'] with the strategy object the
    first run left behind returns, and its [Signal] column restricted to
    the rows of [d] is the [Signal] column of the first run. *)
Theorem signals_prefix_stable self df df' h d d' closes ext
    res1 self1 h1 :
  h !! df = Some d →
  h !! df' = Some d' →
  df_columns d !! "Close" = Some (FloatCol closes) →
  df_columns d' !! "Close" = Some (FloatCol (closes ++ ext)) →
  take (length (df_index d)) (df_index d') = df_index d →
  length (df_index d') = length (closes ++ ext) →
  NoDup (df_index d') →
  generate_signals talib_MACD self df h = Ok (res1, self1, h1) →
  ∃ res2 self2 h2 r1 r2 S1 S2,
    generate_signals talib_MACD self1 df' h1 = Ok (res2, self2, h2)
    ∧ h1 !! res1 = Some r1
    ∧ h2 !! res2 = Some r2
    ∧ df_columns r1 !! "Signal" = Some (IntCol S1)
    ∧ df_columns r2 !! "Signal" = Some (IntCol S2)
    ∧ length S1 = length (df_index d)
    ∧ take (length S1) S2 = S1.
Proof.
  intros Hd Hd' Hc Hc' Hidx Hlen' Hnd' Hgen.
  apply generate_signals_Ok in Hgen
    as (d0 & values & m & s & hi & Hd0 & Hc0 & HM & Lm & Ls & Lh
        & -> & -> & ->).
  assert (d0 = d) as -> by congruence.
  assert (values = closes) as -> by congruence.
  destruct (MACD_length _ _ _ _ _ _ _ HM) as (Lm' & _ & _).
  assert (Hn : length closes = length (df_index d)) by congruence.
  (* the indicator on the extended series *)
  pose proof (MACD_causal closes ext (fast_period self) (slow_period self)
                (signal_period self)) as Hca.
  rewrite HM in Hca.
  destruct (talib_MACD (closes ++ ext) _ _ _) as [[[m' s'] hi']|] eqn:HM';
    [|done].
  simpl in Hca. injection Hca as Em Es Eh. unfold take3 in *. simpl in *.
  destruct (MACD_length _ _ _ _ _ _ _ HM') as (Lm2 & Ls2 & Lh2).
  pose proof (is_fresh (dom h)) as Hfresh.
  set (res1 := fresh (dom h)) in *.
  set (st1 := signal_loop (df_index d) m s (position self)) in *.
  set (h1 := <[res1 := signal_frame d m s hi st1]> h).
  assert (Hd1 : h1 !! df' = Some d').
  { unfold h1. rewrite lookup_insert_ne; [done|].
    intros ->. apply Hfresh. apply elem_of_dom. by rewrite Hd'. }
  set (self1 := set_position self st1.2).
  set (st2 := signal_loop (df_index d') m' s' (position self1)).
  exists (fresh (dom h1)), (set_position self1 st2.2),
    (<[fresh (dom h1) := signal_frame d' m' s' hi' st2]> h1),
    (signal_frame d m s hi st1), (signal_frame d' m' s' hi' st2),
    st1.1.1, st2.1.1.
  split.
  { apply generate_signals_Ok. exists d', (closes ++ ext), m', s', hi'.
    repeat split; try done; congruence. }
  split; [by apply lookup_insert_eq|].
  split; [by apply lookup_insert_eq|].
  split; [apply signal_frame_Signal|].
  split; [apply signal_frame_Signal|].
  assert (Hnd : NoDup (df_index d)).
  { rewrite <- (take_drop (length (df_index d)) (df_index d')) in Hnd'.
    apply NoDup_app in Hnd' as [Hnd' _]. by rewrite Hidx in Hnd'. }
  destruct (signal_loop_emitted (df_index d) m s (position self) Hnd)
    as [L1 E1].
  destruct (signal_loop_emitted (df_index d') m' s' (position self1) Hnd')
    as [L2 E2].
  fold st1 in L1, E1. fold st2 in L2, E2.
  split; [done|].
  assert (Hle : (length (df_index d) ≤ length (df_index d'))%nat).
  { rewrite <- Hidx at 1. rewrite length_take. lia. }
  apply list_eq_same_length with (length (df_index d)); [done| |].
  { rewrite length_take. lia. }
  intros i x y Hi Hx Hy.
  rewrite lookup_take_lt in Hx by lia.
  apply list_lookup_total_correct in Hx, Hy.
  rewrite E2 in Hx by lia. rewrite E1 in Hy by lia. subst x y.
  symmetry. apply emitted_agree. intros j Hj.
  rewrite Em, Es.
  rewrite !lookup_total_take_lt by lia. done.
Qed.
End Prefix.

Lemma signals_prefix_stable_witness :
  generate_signals talib.MACD sample_strategy 0%nat prefix_heap
  = Ok prefix_out
  ∧ ∃ out2 r1 r2 S1 S2,
      generate_signals talib.MACD prefix_out.1.2 1%nat prefix_out.2 = Ok out2
      ∧ prefix_out.2 !! prefix_out.1.1 = Some r1
      ∧ out2.2 !! out2.1.1 = Some r2
      ∧ df_columns r1 !! "Signal" = Some (IntCol S1)
      ∧ df_columns r2 !! "Signal" = Some (IntCol S2)
      ∧ take (length S1) S2 = S1.
Proof.
  split; [vm_compute; reflexivity|].
  destruct (signals_prefix_stable talib.MACD
              talib_facts.MACD_causal talib_facts.MACD_length_preserving
              sample_strategy 0%nat 1%nat prefix_heap
              (frame_of_closes (take 10 closes_touch))
              (frame_of_closes closes_touch)
              (of_Z <$> take 10 closes_touch)
              (of_Z <$> drop 10 closes_touch)
              prefix_out.1.1 prefix_out.1.2 prefix_out.2)
    as (res2 & self2 & h2 & r1 & r2 & S1 & S2 & E & H1 & H2 & C1 & C2
        & _ & Ht).
  - reflexivity.
  - reflexivity.
  - reflexivity.
  - reflexivity.
  - reflexivity.
  - reflexivity.
  - refine (bool_decide_unpack _ _). vm_compute. exact I.
  - vm_compute. reflexivity.
  - exists (res2, self2, h2), r1, r2, S1, S2. simpl.
    repeat split; assumption.
Defined.

(** ** The back-test hook [next] and exclusivity (C4) *)

Lemma Qeq_bool_1_m1 q : Qeq_bool q 1 = true → Qeq_bool q (-1) = false.
Proof.
  intros H. apply Qeq_bool_iff in H.
  destruct (Qeq_bool q (-1)) eqn:E; [|done].
  apply Qeq_bool_iff in E. rewrite H in E. discriminate.
Qed.

Lemma Qeq_bool_m1_1 q : Qeq_bool q (-1) = true → Qeq_bool q 1 = false.
Proof.
  intros H. destruct (Qeq_bool q 1) eqn:E; [|done].
  apply Qeq_bool_1_m1 in E. congruence.
Qed.

Lemma next_frame self signals len_data b :
  cash (next self signals len_data b) = cash b
  ∧ trades (next self signals len_data b) = trades b.
Proof. unfold next, place. by repeat case_match. Qed.

Lemma next_sell_while_flat self signals len_data b :
  feq (signals !!! (len_data - 1)%nat) (of_Z (-1)) = true →
  has_position b = false →
  next self signals len_data b = b.
Proof.
  intros Hs Hp. unfold next. rewrite Hp.
  destruct (signals !!! (len_data - 1)%nat) as [q|]; [|done].
  assert (H1 : feq (Some q) (of_Z 1) = false) by exact (Qeq_bool_m1_1 q Hs).
  rewrite H1. simpl. by repeat case_match.
Qed.

Lemma next_buy_while_long self signals len_data b :
  feq (signals !!! (len_data - 1)%nat) (of_Z 1) = true →
  has_position b = true →
  next self signals len_data b = b.
Proof.
  intros Hs Hp. unfold next. rewrite Hp.
  destruct (signals !!! (len_data - 1)%nat) as [q|]; [|done].
  assert (H1 : feq (Some q) (of_Z (-1)) = false)
    by exact (Qeq_bool_1_m1 q Hs).
  rewrite H1. simpl. by repeat case_match.
Qed.

(** What [next] can do to the broker. *)
Lemma next_cases self signals len_data b :
  next self signals len_data b = b
  ∨ (has_position b = false
     ∧ next self signals len_data b
       = place (BuyOrder (p_position_size self)) b)
  ∨ (has_position b = true
     ∧ next self signals len_data b = place CloseOrder b).
Proof.
  unfold next.
  destruct (has_position b); simpl; repeat case_match; auto.
Qed.

Section Exclusive.
Variable floor_to_lot : Q → Q.
Variable commission : Q.

Lemma settled_has_position b :
  settled b →
  (has_position b = false ∧ trades b = [])
  ∨ (has_position b = true ∧ ∃ t, trades b = [t]).
Proof.
  intros [_ [Ht|(t & Ht & Hpos)]]; unfold has_position, position_size;
    rewrite Ht; simpl.
  - by left.
  - right. split; [|by exists t].
    rewrite negb_true_iff.
    destruct (Qeq_bool (t_size t + 0) 0) eqn:E; [|done].
    apply Qeq_bool_iff in E. rewrite Qplus_0_r in E.
    rewrite E in Hpos. by apply Qlt_irrefl in Hpos.
Qed.

Lemma on_bar_settled self signals b bar :
  settled b →
  settled (on_bar floor_to_lot commission self signals b bar).
Proof.
  intros Hb. unfold on_bar, execute_orders.
  pose proof Hb as [Ho _].
  destruct (settled_has_position b Hb) as [[Hp Ht]|[Hp (t & Ht)]];
    destruct (next_cases self signals (S bar.1) b)
      as [->|[[Hp' ->]|[Hp' ->]]]; try congruence.
  - rewrite Ho. simpl. split; [done|]. left. done.
  - unfold place. rewrite Ho, Ht. simpl.
    case_match eqn:E; simpl; [|by split; [|left]].
    split; [done|]. right. eexists. split; [done|]. simpl.
    apply andb_true_iff in E as [E _]. apply negb_true_iff in E.
    apply Qnot_le_lt. intros Hle. apply Qle_bool_iff in Hle. congruence.
  - rewrite Ho. simpl. destruct Hb as [_ Hb]. by split.
  - unfold place. rewrite Ho. simpl. split; [done|]. by left.
Qed.

Lemma run_settled self signals closes cash0 :
  settled (run floor_to_lot commission self signals closes cash0).
Proof.
  unfold run.
  assert (H0 : settled (mkBroker cash0 [] [])) by (split; [done|by left]).
  revert H0. generalize (mkBroker cash0 [] []).
  generalize (zip (seq 0 (length closes)) closes).
  intros bars. induction bars as [|bar bars IH]; intros b Hb; [done|].
  simpl. apply IH. by apply on_bar_settled.
Qed.

(** C4.  [next] never changes the cash or the open trades; a Sell signal
    while no position is held and a Buy signal while a position is held
    leave the broker as it is, with no order placed; and in the
    simulation at most one trade is open after any number of bars. *)
Theorem exclusive_position self signals :
  (∀ len_data b,
     cash (next self signals len_data b) = cash b
     ∧ trades (next self signals len_data b) = trades b)
  ∧ (∀ len_data b,
       feq (signals !!! (len_data - 1)%nat) (of_Z (-1)) = true →
       has_position b = false →
       next self signals len_data b = b)
  ∧ (∀ len_data b,
       feq (signals !!! (len_data - 1)%nat) (of_Z 1) = true →
       has_position b = true →
       next self signals len_data b = b)
  ∧ (∀ closes cash0 k,
       (length (trades (run floor_to_lot commission self signals
                          (take k closes) cash0)) ≤ 1)%nat).
Proof.
  split; [intros; apply next_frame|].
  split; [intros; by apply next_sell_while_flat|].
  split; [intros; by apply next_buy_while_long|].
  intros closes cash0 k.
  destruct (run_settled self signals (take k closes) cash0)
    as [_ [->|(t & -> & _)]]; simpl; lia.
Qed.
End Exclusive.

Lemma exclusive_position_witness :
  next (mkBacktestParams 3 7 3 (4 # 5)) signals_buy 17 flat_broker
  = place (BuyOrder (4 # 5)) flat_broker
  ∧ next (mkBacktestParams 3 7 3 (4 # 5)) signals_sell 17 long_broker
    = place CloseOrder long_broker
  ∧ next (mkBacktestParams 3 7 3 (4 # 5)) signals_sell 17 flat_broker
    = flat_broker
  ∧ next (mkBacktestParams 3 7 3 (4 # 5)) signals_buy 17 long_broker
    = long_broker.
Proof.
  split; [reflexivity|]. split; [reflexivity|].
  destruct (exclusive_position (λ q, q) 0%Q (mkBacktestParams 3 7 3 (4 # 5))
              signals_sell) as (_ & Hsell & _).
  destruct (exclusive_position (λ q, q) 0%Q (mkBacktestParams 3 7 3 (4 # 5))
              signals_buy) as (_ & _ & Hbuy & _).
  split.
  - apply (Hsell 17%nat flat_broker); reflexivity.
  - apply (Hbuy 17%nat long_broker); reflexivity.
Defined.

(** ** Preparing the data (C5) *)

Lemma take_rows_index rows df :
  df_index (take_rows rows df) = (λ i, df_index df !!! i) <$> rows.
Proof. done. Qed.

Lemma fmap_lookup_total_compose {A} `{!Inhabited A} (xs : list A)
    (rows rows' : list nat) :
  Forall (λ j, j < length rows)%nat rows' →
  (λ j, ((λ i, xs !!! i) <$> rows) !!! j) <$> rows'
  = (λ i, xs !!! i) <$> ((λ j, rows !!! j) <$> rows').
Proof.
  intros H. rewrite <- list_fmap_compose. apply Forall_fmap_ext_1.
  eapply Forall_impl; [exact H|]. intros j Hj. simpl.
  by rewrite (list_lookup_total_fmap (λ i, xs !!! i) rows j Hj).
Qed.

Lemma col_take_compose rows rows' c :
  Forall (λ j, j < length rows)%nat rows' →
  col_take rows' (col_take rows c)
  = col_take ((λ j, rows !!! j) <$> rows') c.
Proof.
  intros H. destruct c; simpl; f_equal; by apply fmap_lookup_total_compose.
Qed.

Lemma take_rows_compose rows rows' df :
  Forall (λ j, j < length rows)%nat rows' →
  take_rows rows' (take_rows rows df)
  = take_rows ((λ j, rows !!! j) <$> rows') df.
Proof.
  intros H. unfold take_rows. simpl. f_equal.
  - by apply fmap_lookup_total_compose.
  - rewrite <- map_fmap_compose. apply map_fmap_ext.
    intros k c _. simpl. by apply col_take_compose.
Qed.

Lemma fmap_lookup_total_seq {A} `{!Inhabited A} (xs : list A) :
  (λ i, xs !!! i) <$> seq 0 (length xs) = xs.
Proof.
  apply list_eq_same_length with (length xs);
    [done|by rewrite length_fmap, length_seq|].
  intros i x y Hi Hx Hy.
  rewrite list_lookup_fmap, lookup_seq_lt in Hx by done. simpl in Hx.
  apply list_lookup_total_correct in Hy. congruence.
Qed.

Lemma fmap_lookup_pairs (idx : list Z) (pairs : list (Z * nat)) :
  Forall (λ lp, idx !!! lp.2 = lp.1) pairs →
  (λ p, idx !!! p) <$> pairs.*2 = pairs.*1.
Proof.
  induction 1 as [|[l p] ps Hlp _ IH]; [done|].
  rewrite !fmap_cons. cbn [fst snd] in *. by f_equal.
Qed.

Lemma Sorted_label_le_fst (pairs : list (Z * nat)) :
  Sorted label_le pairs → Sorted Z.le pairs.*1.
Proof.
  induction 1 as [|x xs _ IH Hhd]; [constructor|].
  simpl. constructor; [done|].
  destruct Hhd; simpl; constructor. done.
Qed.

(** The sorted pairs of label and position, and what they say. *)
Lemma sorted_pairs idx :
  let pairs := merge_sort label_le (zip idx (seq 0 (length idx))) in
  pairs.*2 ≡ₚ seq 0 (length idx)
  ∧ (λ p, idx !!! p) <$> pairs.*2 = pairs.*1
  ∧ Sorted Z.le pairs.*1.
Proof.
  intros pairs.
  assert (Hperm : pairs ≡ₚ zip idx (seq 0 (length idx)))
    by apply merge_sort_Permutation.
  split; [|split].
  - rewrite Hperm. rewrite snd_zip; [done|]. by rewrite length_seq.
  - apply fmap_lookup_pairs.
    rewrite Hperm. apply Forall_forall. intros [l p] Hin.
    apply list_elem_of_lookup in Hin as [i Hi].
    apply lookup_zip_with_Some in Hi as (l' & p' & [= <- <-] & Hl & Hp).
    apply lookup_seq in Hp as [-> _]. simpl.
    by apply list_lookup_total_correct.
  - apply Sorted_label_le_fst, Sorted_merge_sort.
    intros [a ?] [b ?]. unfold label_le. simpl. lia.
Qed.

Lemma sort_index_spec df :
  ∃ rows,
    rows ≡ₚ seq 0 (length (df_index df))
    ∧ sort_index df = take_rows rows df
    ∧ Sorted Z.le (df_index (sort_index df)).
Proof.
  destruct (sorted_pairs (df_index df)) as (Hp & Hl & Hs).
  eexists. split; [exact Hp|]. split; [done|].
  unfold sort_index. rewrite take_rows_index. by rewrite Hl.
Qed.

Lemma required_columns_check df :
  match filter (λ col, df_columns df !! col = None) required_columns with
  | [] => ∀ col, col ∈ required_columns → is_Some (df_columns df !! col)
  | col :: _ => col ∈ required_columns ∧ df_columns df !! col = None
  end.
Proof.
  destruct (filter _ required_columns) as [|col cols] eqn:E.
  - intros col Hcol. destruct (df_columns df !! col) eqn:Ec; [done|].
    assert (col ∈ filter (λ col, df_columns df !! col = None)
                    required_columns) as Hin
      by (by apply list_elem_of_filter).
    rewrite E in Hin. by apply elem_of_nil in Hin.
  - assert (col ∈ filter (λ col, df_columns df !! col = None)
                    required_columns) as Hin
      by (rewrite E; apply elem_of_cons; by left).
    apply list_elem_of_filter in Hin as [? ?]. done.
Qed.

Lemma filter_first {A} (P : A → Prop) `{!∀ x, Decision (P x)}
    (l : list A) x rest :
  filter P l = x :: rest →
  ∃ before after,
    l = before ++ x :: after ∧ Forall (λ y, ¬ P y) before ∧ P x.
Proof.
  induction l as [|a l IH]; [done|].
  rewrite filter_cons. case_decide as Ha.
  - intros [= -> _]. by exists [], l.
  - intros E. destruct (IH E) as (before & after & -> & Hb & Hx).
    exists (a :: before), after. repeat split; [|done]. by constructor.
Qed.

(** C5 fails on [unsorted_frame], which has a negative close price and
    labels that are not increasing: the runner accepts it and sorts it. *)
Lemma prepare_data_accepts_bad_rows :
  df_index unsorted_frame = [3; 1; 2]
  ∧ df_columns unsorted_frame !! "Close"
    = Some (FloatCol [of_Z (-5); of_Z 7; of_Z 9])
  ∧ ∃ r, _prepare_data (mkBacktestRunner unsorted_frame) = Ok r
      ∧ df_index (data r) = [1; 2; 3]
      ∧ df_columns (data r) !! "Close"
        = Some (FloatCol [of_Z 7; of_Z 9; of_Z (-5)]).
Proof.
  split; [reflexivity|]. split; [vm_compute; reflexivity|].
  eexists. split; [vm_compute; reflexivity|].
  split; vm_compute; reflexivity.
Qed.

(** C5, as the code has it.  [_prepare_data] checks only that the five
    required columns exist, and fails with a [ValueError] naming the first
    one that is missing: every required column before it is there.
    Otherwise it fails, with an [IndexError], exactly when no row without a
    missing value is left; when it succeeds at least one such row exists and
    it keeps exactly these rows, rearranged in ascending order of their
    labels, whatever the prices are and in whatever order the labels came. *)
Theorem prepare_data_sorts_rows self :
  match _prepare_data self with
  | Ok r =>
      (∀ col, col ∈ required_columns →
         is_Some (df_columns (data self) !! col))
      ∧ complete_rows (data self) ≠ []
      ∧ ∃ rows,
          rows ≡ₚ complete_rows (data self)
          ∧ data r = take_rows rows (data self)
          ∧ Sorted Z.le (df_index (data r))
  | Raise (ValueError col) =>
      ∃ before after,
        required_columns = before ++ col :: after
        ∧ (∀ c, c ∈ before → is_Some (df_columns (data self) !! c))
        ∧ df_columns (data self) !! col = None
  | Raise IndexError =>
      (∀ col, col ∈ required_columns →
         is_Some (df_columns (data self) !! col))
      ∧ complete_rows (data self) = []
  | Raise _ => False
  end.
Proof.
  unfold _prepare_data.
  pose proof (required_columns_check (data self)) as Hreq.
  destruct (filter _ required_columns) as [|col cols] eqn:Ef.
  2:{ destruct (filter_first _ _ _ _ Ef) as (before & after & E & Hb & Hcol).
      exists before, after. split; [done|]. split; [|done].
      intros c Hc. rewrite Forall_forall in Hb. specialize (Hb c Hc).
      simpl in Hb. by destruct (df_columns (data self) !! c). }
  destruct (sort_index_spec (dropna (data self))) as (rows & Hp & Hs & Hsorted).
  unfold dropna in *. rewrite take_rows_index, length_fmap in Hp.
  rewrite take_rows_compose in Hs.
  2:{ apply Forall_forall. intros j Hj. rewrite Hp in Hj.
      by apply elem_of_seq in Hj as [_ ?]. }
  assert (Hrows : (λ j, complete_rows (data self) !!! j) <$> rows
                  ≡ₚ complete_rows (data self)).
  { rewrite Hp. by rewrite fmap_lookup_total_seq. }
  destruct (df_index (sort_index _)) as [|l ls] eqn:E.
  - split; [done|].
    rewrite Hs, take_rows_index in E. apply fmap_nil_inv in E.
    rewrite E in Hrows. by apply Permutation_nil_l in Hrows.
  - split; [done|]. split.
    { intros Hnil. rewrite Hnil in Hrows.
      apply Permutation_nil_r, fmap_nil_inv in Hrows.
      rewrite Hs, take_rows_index, Hrows in E. done. }
    eexists. split; [exact Hrows|].
    split; [exact Hs|]. rewrite <- E in Hsorted. exact Hsorted.
Qed.

(** ** The optimiser grid (C8) *)





(** * Further properties of the code *)

(** ** The signal generator *)

Lemma emitted_no_repeat macd sig i :
  emitted macd sig i ≠ 0 → emitted macd sig (S i) ≠ emitted macd sig i.
Proof.
  intros Hne Heq.
  pose proof (emitted_range macd sig i) as Hr.
  assert (emitted macd sig i = 1 ∨ emitted macd sig i = -1) as [E|E].
  { repeat (apply elem_of_cons in Hr as [Hr|Hr]); auto; try done.
    by apply elem_of_nil in Hr. }
  - rewrite E in Heq.
    apply emitted_1 in E as (_ & _ & E). apply emitted_1 in Heq as (_ & _ & H).
    unfold cross_up in E, H.
    apply andb_true_iff in E as [_ E]. apply andb_true_iff in H as [H _].
    replace (S i - 1)%nat with i in H by lia.
    by destruct (apart_not_fle_fgt _ _ H E).
  - rewrite E in Heq.
    apply emitted_m1 in E as (_ & _ & E).
    apply emitted_m1 in Heq as (_ & _ & H).
    unfold cross_down in E, H.
    apply andb_true_iff in E as [_ E]. apply andb_true_iff in H as [H _].
    replace (S i - 1)%nat with i in H by lia.
    unfold fge in H. apply flt_fle_false in E. congruence.
Qed.

Lemma last_nonhold_app l1 l2 d :
  last_nonhold (l1 ++ l2) d = last_nonhold l2 (last_nonhold l1 d).
Proof. unfold last_nonhold. apply foldl_app. Qed.

Lemma signal_step_position idx macd sig st i :
  (1 ≤ i)%nat →
  (signal_step idx macd sig st i).2
  = if decide (emitted macd sig i = 0) then st.2 else emitted macd sig i.
Proof.
  intros Hi. rewrite signal_step_eq. unfold emitted.
  destruct (decide (1 ≤ i)%nat); [|lia].
  destruct (defined_at macd sig i), (cross_up macd sig i),
    (cross_down macd sig i); done.
Qed.

Lemma foldl_signal_step_position idx macd sig st k :
  (foldl (signal_step idx macd sig) st (seq 1 k)).2
  = last_nonhold (emitted macd sig <$> seq 1 k) st.2.
Proof.
  induction k as [|k IH]; [done|].
  rewrite seq_S, foldl_app, fmap_app, last_nonhold_app. simpl.
  rewrite signal_step_position by lia. by rewrite IH.
Qed.

(** The state left on the strategy object, for any row labels. *)
Lemma signal_loop_position idx macd sig pos :
  (signal_loop idx macd sig pos).2
  = last_nonhold (emitted macd sig <$> seq 1 (length idx - 1)) pos.
Proof. unfold signal_loop. by rewrite foldl_signal_step_position. Qed.

Lemma signal_loop_Signal_list idx macd sig pos :
  NoDup idx →
  (signal_loop idx macd sig pos).1.1
  = emitted macd sig <$> seq 0 (length idx).
Proof.
  intros Hnd.
  destruct (signal_loop_emitted idx macd sig pos Hnd) as [Hlen Hem].
  apply list_eq_same_length with (length idx);
    [by rewrite length_fmap, length_seq|done|].
  intros i x y Hi Hx Hy.
  apply list_lookup_total_correct in Hx. rewrite Hem in Hx by done.
  rewrite list_lookup_fmap, lookup_seq_lt in Hy by done.
  simpl in Hy. congruence.
Qed.

Lemma last_nonhold_Signal idx macd sig pos :
  NoDup idx →
  last_nonhold (signal_loop idx macd sig pos).1.1 pos
  = (signal_loop idx macd sig pos).2.
Proof.
  intros Hnd. rewrite signal_loop_Signal_list, signal_loop_position by done.
  destruct (length idx) as [|n]; [done|].
  simpl. by rewrite Nat.sub_0_r.
Qed.

(** When no row has its four values defined the loop changes nothing. *)
Lemma foldl_signal_step_undefined idx macd sig st rows :
  Forall (λ i, defined_at macd sig i = false) rows →
  foldl (signal_step idx macd sig) st rows = st.
Proof.
  revert st. induction rows as [|i rows IH]; intros st H; [done|].
  inversion H; subst. simpl. rewrite signal_step_defined by done.
  by apply IH.
Qed.

Lemma signal_loop_undefined idx macd sig pos :
  (∀ i, (1 ≤ i < length idx)%nat → defined_at macd sig i = false) →
  signal_loop idx macd sig pos
  = (replicate (length idx) 0, replicate (length idx) 0, pos).
Proof.
  intros H. unfold signal_loop. apply foldl_signal_step_undefined.
  apply Forall_forall. intros i Hi. apply elem_of_seq in Hi. apply H. lia.
Qed.

Lemma set_position_same self : set_position self (position self) = self.
Proof. by destruct self. Qed.

Section SignalExtras.
Variable talib_MACD :
  list float → Z → Z → Z → result (list float * list float * list float).

(** X1.  Whatever the row labels are, every entry of the [Signal] column is
    -1, 0 or 1. *)
Theorem signal_values self df h res self' h' :
  generate_signals talib_MACD self df h = Ok (res, self', h') →
  ∃ r Signal,
    h' !! res = Some r
    ∧ df_columns r !! "Signal" = Some (IntCol Signal)
    ∧ length Signal = length (df_index r)
    ∧ Forall (λ x, x ∈ [-1; 0; 1]) Signal.
Proof.
  intros Hgen.
  apply generate_signals_Ok in Hgen
    as (d & values & m & s & hi & Hd & Hc & HM & H1 & H2 & H3
        & -> & -> & ->).
  eexists _, _. split; [by rewrite lookup_insert_eq|].
  split; [apply signal_frame_Signal|].
  split; [apply signal_loop_lengths|].
  rewrite (signal_loop_Signal_indep _ _ _ _ 0).
  apply (signal_loop_range (df_index d) m s (λ x, x ∈ [-1; 0; 1]) 0);
    apply list_elem_of_lookup;
    [by exists 2%nat|by exists 0%nat|by exists 1%nat|by exists 1%nat].
Qed.

(** X2.  With distinct row labels, a row that carries a Buy is never
    followed at once by a row that carries a Buy, nor a Sell by a Sell. *)
Theorem no_consecutive_repeat self df h d res self' h' :
  h !! df = Some d →
  NoDup (df_index d) →
  generate_signals talib_MACD self df h = Ok (res, self', h') →
  ∃ r Signal,
    h' !! res = Some r
    ∧ df_columns r !! "Signal" = Some (IntCol Signal)
    ∧ ∀ i, (S i < length Signal)%nat →
        Signal !!! i ≠ 0 → Signal !!! S i ≠ Signal !!! i.
Proof.
  intros Hd Hnd Hgen.
  apply generate_signals_Ok in Hgen
    as (d' & values & m & s & hi & Hd' & Hc & HM & H1 & H2 & H3
        & -> & -> & ->).
  assert (d' = d) as -> by congruence.
  destruct (signal_loop_emitted (df_index d) m s (position self) Hnd)
    as [Hlen Hem].
  eexists _, _. split; [by rewrite lookup_insert_eq|].
  split; [apply signal_frame_Signal|].
  rewrite Hlen. intros i Hi. rewrite !Hem by lia.
  apply emitted_no_repeat.
Qed.

(** X3.  Whenever [generate_signals] returns and no row from the second on
    has its two current and two previous indicator values defined (in
    particular for a frame of no row or one row), [Signal] and [Position] are
    zero at every row and the strategy object is as it was. *)
Theorem no_defined_row_all_hold self df h res self' h' :
  generate_signals talib_MACD self df h = Ok (res, self', h') →
  ∃ r macd sig,
    h' !! res = Some r
    ∧ df_columns r !! "MACD" = Some (FloatCol macd)
    ∧ df_columns r !! "MACD_Signal" = Some (FloatCol sig)
    ∧ ((∀ i, (1 ≤ i < length (df_index r))%nat →
          defined_at macd sig i = false) →
       df_columns r !! "Signal"
       = Some (IntCol (replicate (length (df_index r)) 0))
       ∧ df_columns r !! "Position"
         = Some (IntCol (replicate (length (df_index r)) 0))
       ∧ self' = self).
Proof.
  intros Hgen.
  apply generate_signals_Ok in Hgen
    as (d & values & m & s & hi & Hd & Hc & HM & H1 & H2 & H3
        & -> & -> & ->).
  eexists _, m, s. split; [by rewrite lookup_insert_eq|].
  split; [apply signal_frame_MACD|].
  split; [apply signal_frame_MACD_Signal|].
  intros Hund.
  rewrite signal_frame_Signal, signal_frame_Position.
  change (df_index (signal_frame d m s hi _)) with (df_index d) in *.
  rewrite (signal_loop_undefined _ _ _ _ Hund). simpl.
  by rewrite set_position_same.
Qed.

(** X4.  The position left on the strategy object is the last non-hold
    signal of the run, or the position it had before when every row holds;
    with distinct row labels this is the last non-zero entry of the [Signal]
    column. *)
Theorem final_position_last_signal self df h res self' h' :
  generate_signals talib_MACD self df h = Ok (res, self', h') →
  ∃ r macd sig Signal,
    h' !! res = Some r
    ∧ df_columns r !! "MACD" = Some (FloatCol macd)
    ∧ df_columns r !! "MACD_Signal" = Some (FloatCol sig)
    ∧ df_columns r !! "Signal" = Some (IntCol Signal)
    ∧ position self'
      = last_nonhold (emitted macd sig <$> seq 1 (length (df_index r) - 1))
                     (position self)
    ∧ (NoDup (df_index r) →
       position self' = last_nonhold Signal (position self)).
Proof.
  intros Hgen.
  apply generate_signals_Ok in Hgen
    as (d & values & m & s & hi & Hd & Hc & HM & H1 & H2 & H3
        & -> & -> & ->).
  eexists _, m, s, _. split; [by rewrite lookup_insert_eq|].
  split; [apply signal_frame_MACD|].
  split; [apply signal_frame_MACD_Signal|].
  split; [apply signal_frame_Signal|].
  change (df_index (signal_frame d m s hi _)) with (df_index d).
  split; [apply signal_loop_position|].
  intros Hnd. by rewrite last_nonhold_Signal.
Qed.
End SignalExtras.

Lemma signal_values_witness :
  sample_run closes_touch = Ok (sample_out closes_touch)
  ∧ ∃ r Signal,
      (sample_out closes_touch).2 !! (sample_out closes_touch).1.1 = Some r
      ∧ df_columns r !! "Signal" = Some (IntCol Signal)
      ∧ Forall (λ x, x ∈ [-1; 0; 1]) Signal.
Proof.
  split; [vm_compute; reflexivity|].
  destruct (signal_values talib.MACD sample_strategy 0%nat
              (sample_heap closes_touch)
              (sample_out closes_touch).1.1 (sample_out closes_touch).1.2
              (sample_out closes_touch).2)
    as (r & Signal & Hr & HS & _ & Hall).
  - vm_compute. reflexivity.
  - exists r, Signal. split; [exact Hr|]. split; [exact HS|exact Hall].
Defined.

Lemma no_consecutive_repeat_witness :
  sample_run closes_touch = Ok (sample_out closes_touch)
  ∧ ∃ r Signal,
      (sample_out closes_touch).2 !! (sample_out closes_touch).1.1 = Some r
      ∧ df_columns r !! "Signal" = Some (IntCol Signal)
      ∧ ∀ i, (S i < length Signal)%nat →
          Signal !!! i ≠ 0 → Signal !!! S i ≠ Signal !!! i.
Proof.
  split; [vm_compute; reflexivity|].
  apply (no_consecutive_repeat talib.MACD sample_strategy 0%nat
           (sample_heap closes_touch) (frame_of_closes closes_touch)
           (sample_out closes_touch).1.1 (sample_out closes_touch).1.2).
  - vm_compute. reflexivity.
  - refine (bool_decide_unpack _ _). vm_compute. exact I.
  - vm_compute. reflexivity.
Defined.

Lemma no_defined_row_all_hold_witness :
  sample_run [64] = Ok (sample_out [64])
  ∧ (sample_out [64]).1.2 = sample_strategy.
Proof.
  split; [vm_compute; reflexivity|].
  destruct (no_defined_row_all_hold talib.MACD sample_strategy 0%nat
              (sample_heap [64])
              (sample_out [64]).1.1 (sample_out [64]).1.2 (sample_out [64]).2)
    as (r & macd & sig & Hr & _ & _ & H).
  - vm_compute. reflexivity.
  - apply H. intros i Hi.
    assert (E : df_index r = [0]).
    { vm_compute in Hr. injection Hr as <-. reflexivity. }
    rewrite E in Hi. simpl in Hi. lia.
Defined.

Lemma final_position_last_signal_witness :
  sample_run closes_fall = Ok (sample_out closes_fall)
  ∧ ∃ r Signal,
      (sample_out closes_fall).2 !! (sample_out closes_fall).1.1 = Some r
      ∧ df_columns r !! "Signal" = Some (IntCol Signal)
      ∧ (NoDup (df_index r) →
         position (sample_out closes_fall).1.2
         = last_nonhold Signal (position sample_strategy)).
Proof.
  split; [vm_compute; reflexivity|].
  destruct (final_position_last_signal talib.MACD sample_strategy 0%nat
              (sample_heap closes_fall)
              (sample_out closes_fall).1.1 (sample_out closes_fall).1.2
              (sample_out closes_fall).2)
    as (r & macd & sig & Signal & Hr & _ & _ & HS & _ & H).
  - vm_compute. reflexivity.
  - exists r, Signal. split; [exact Hr|]. split; [exact HS|exact H].
Defined.

(** ** Series shorter than the warm-up *)

Lemma MACD_head_nan xs fast slow signal m s h j :
  talib.MACD xs fast slow signal = Ok (m, s, h) →
  (j < length xs)%nat →
  Z.of_nat j < Z.max fast slow + signal - 2 →
  m !!! j = NaN ∧ s !!! j = NaN.
Proof.
  intros H Hj HL.
  apply talib_facts.MACD_Ok in H as (C1 & C2 & C3 & H).
  pose proof (talib_facts.opt_period_ge 12 fast ltac:(lia) C1) as Gf.
  pose proof (talib_facts.opt_period_ge 26 slow ltac:(lia) C2) as Gs.
  pose proof (talib_facts.opt_period_ge 9 signal ltac:(lia) C3) as Gg.
  apply talib_facts.MACD_periods_Ok in H as [(H1 & H2 & H3) [= -> -> ->]].
  assert (HL' : (j < talib.MACD_Lookback (talib.opt_period 12 fast)
                       (talib.opt_period 26 slow)
                       (talib.opt_period 9 signal))%nat).
  { unfold talib.MACD_Lookback.
    generalize dependent (talib.opt_period 12 fast).
    generalize dependent (talib.opt_period 26 slow).
    generalize dependent (talib.opt_period 9 signal).
    intros. lia. }
  unfold talib.pad.
  rewrite !lookup_total_take_lt by done.
  rewrite !lookup_total_app_l by (rewrite length_replicate; lia).
  rewrite !lookup_total_replicate_2 by lia. done.
Qed.

(** X5.  With the indicator of TA-Lib, a frame of at most
    [max(fast, slow) + signal - 1] rows is too short for any crossover:
    whenever [generate_signals] returns, [Signal] and [Position] are zero at
    every row and the strategy object is as it was. *)
Theorem short_series_all_hold self df h d res self' h' :
  h !! df = Some d →
  Z.of_nat (length (df_index d))
  ≤ Z.max (fast_period self) (slow_period self) + signal_period self - 1 →
  generate_signals talib.MACD self df h = Ok (res, self', h') →
  ∃ r,
    h' !! res = Some r
    ∧ df_columns r !! "Signal"
      = Some (IntCol (replicate (length (df_index d)) 0))
    ∧ df_columns r !! "Position"
      = Some (IntCol (replicate (length (df_index d)) 0))
    ∧ self' = self.
Proof.
  intros Hd Hshort Hgen.
  apply generate_signals_Ok in Hgen
    as (d' & values & m & s & hi & Hd' & Hc & HM & H1 & H2 & H3
        & -> & -> & ->).
  assert (d' = d) as -> by congruence.
  destruct (talib_facts.MACD_length_preserving _ _ _ _ _ _ _ HM)
    as (Lm & _ & _).
  eexists. split; [by rewrite lookup_insert_eq|].
  rewrite signal_frame_Signal, signal_frame_Position.
  rewrite signal_loop_undefined; [by rewrite set_position_same|].
  intros i Hi. unfold defined_at.
  destruct (MACD_head_nan values _ _ _ m s hi (i - 1)%nat HM)
    as [-> _]; [lia|lia|].
  simpl. by rewrite !orb_true_r.
Qed.

Lemma short_series_all_hold_witness :
  sample_run closes_short = Ok (sample_out closes_short)
  ∧ (sample_out closes_short).1.2 = sample_strategy.
Proof.
  split; [vm_compute; reflexivity|].
  destruct (short_series_all_hold sample_strategy 0%nat
              (sample_heap closes_short) (frame_of_closes closes_short)
              (sample_out closes_short).1.1 (sample_out closes_short).1.2
              (sample_out closes_short).2)
    as (r & _ & _ & _ & H).
  - reflexivity.
  - vm_compute. discriminate.
  - vm_compute. reflexivity.
  - exact H.
Defined.

(** ** The back-test strategy: [init] and [next] together *)

Lemma NoDup_range_index n : NoDup (range_index n).
Proof.
  unfold range_index. apply NoDup_fmap; [|apply NoDup_seq].
  intros i j. lia.
Qed.

Lemma length_range_index n : length (range_index n) = n.
Proof. unfold range_index. by rewrite length_fmap, length_seq. Qed.

Lemma feq_of_Z a b : feq (of_Z a) (of_Z b) = bool_decide (a = b).
Proof.
  unfold feq, of_Z. destruct (decide (a = b)) as [->|Hne].
  - rewrite bool_decide_eq_true_2 by done. by apply Qeq_bool_iff.
  - rewrite bool_decide_eq_false_2 by done.
    destruct (Qeq_bool (inject_Z a) (inject_Z b)) eqn:E; [|done].
    exfalso. apply Hne. apply inject_Z_injective. by apply Qeq_bool_iff.
Qed.

Section BacktestInitFacts.
Variable talib_MACD :
  list float → Z → Z → Z → result (list float * list float * list float).

Lemma init_Ok params data h st h' :
  init talib_MACD params data h = Ok (st, h') →
  ∃ m s hi,
    length m = length (df_index data)
    ∧ length s = length (df_index data)
    ∧ length hi = length (df_index data)
    ∧ bt_params st = params
    ∧ bt_macd st = m ∧ bt_signal_line st = s ∧ bt_histogram st = hi
    ∧ bt_signals st
      = of_Z <$> (signal_loop (range_index (length (df_index data)))
                    m s 0).1.1.
Proof.
  unfold init, copy, getitem.
  destruct (df_columns data !! "Open") as [o|]; [|done].
  destruct (df_columns data !! "High") as [hi|]; [|done].
  destruct (df_columns data !! "Low") as [lo|]; [|done].
  destruct (df_columns data !! "Close") as [c|]; [|done].
  destruct (df_columns data !! "Volume") as [v|]; [|done].
  simpl. unfold pd_DataFrame. case_decide; [|done]. simpl.
  destruct (generate_signals _ _ _ _) as [[[res self'] h1]|] eqn:Hgen;
    [|done].
  apply generate_signals_Ok in Hgen
    as (d & values & m & s & hs & Hd & Hc & HM & H1 & H2 & H3
        & -> & -> & ->).
  rewrite lookup_insert_eq in Hd. injection Hd as <-. simpl in *.
  rewrite lookup_insert_eq.
  rewrite signal_frame_MACD, signal_frame_MACD_Signal,
    signal_frame_MACD_Histogram, signal_frame_Signal. simpl.
  intros [= <- <-]. simpl.
  rewrite length_range_index in H1, H2, H3.
  by exists m, s, hs.
Qed.

Lemma init_signal_at params data h st h' :
  init talib_MACD params data h = Ok (st, h') →
  bt_params st = params
  ∧ length (bt_signals st) = length (df_index data)
  ∧ ∀ i, (i < length (df_index data))%nat →
      bt_signals st !!! i
      = of_Z (emitted (bt_macd st) (bt_signal_line st) i).
Proof.
  intros H. apply init_Ok in H
    as (m & s & hi & Lm & Ls & Lh & -> & -> & -> & _ & ->).
  pose proof (signal_loop_emitted (range_index (length (df_index data)))
                m s 0 (NoDup_range_index _)) as [Hlen Hem].
  rewrite length_range_index in Hlen, Hem.
  split; [done|]. split; [by rewrite length_fmap|].
  intros i Hi.
  rewrite (list_lookup_total_fmap of_Z _ i) by lia. by rewrite Hem.
Qed.

(** X6.  The frame that [init] hands to the strategy is labelled
    [0 .. n - 1], whatever the labels of the data are: the signal that the
    back-test reads at every bar [i] is the emission that the two indicator
    lines determine at [i], and the four arrays have one entry per bar. *)
Theorem init_signals params data h st h' :
  init talib_MACD params data h = Ok (st, h') →
  bt_params st = params
  ∧ length (bt_macd st) = length (df_index data)
  ∧ length (bt_signal_line st) = length (df_index data)
  ∧ length (bt_histogram st) = length (df_index data)
  ∧ length (bt_signals st) = length (df_index data)
  ∧ ∀ i, (i < length (df_index data))%nat →
      bt_signals st !!! i
      = of_Z (emitted (bt_macd st) (bt_signal_line st) i).
Proof.
  intros H.
  destruct (init_signal_at _ _ _ _ _ H) as (Hp & Lsig & Hsig).
  apply init_Ok in H
    as (m & s & hi & Lm & Ls & Lh & _ & Em & Es & Eh & _).
  rewrite Em, Es, Eh in *. done.
Qed.

(** X7.  On the signals that [init] prepared, [next] acts on every
    emission from the bar at which [len(self.data)] reaches
    [max(fast, slow, signal) + 10]: at a Buy it places one buy order when no
    position is held, at a Sell it closes the position when one is held, and
    it does nothing else.  The test on the previous signal never withholds an
    order. *)
Theorem next_on_generated_signals params data h st h' len_data b :
  init talib_MACD params data h = Ok (st, h') →
  (1 ≤ len_data ≤ length (df_index data))%nat →
  Z.max (Z.max (p_fast_period params) (p_slow_period params))
        (p_signal_period params) + 10 ≤ Z.of_nat len_data →
  next (bt_params st) (bt_signals st) len_data b
  = let current :=
      emitted (bt_macd st) (bt_signal_line st) (len_data - 1) in
    if decide (current = 1)
    then (if has_position b then b
          else place (BuyOrder (p_position_size params)) b)
    else if decide (current = -1)
    then (if has_position b then place CloseOrder b else b)
    else b.
Proof.
  intros Hinit Hlen Hguard.
  destruct (init_signal_at _ _ _ _ _ Hinit) as (-> & _ & Hsig).
  unfold next.
  assert ((Z.of_nat len_data <?
           Z.max (Z.max (p_fast_period params) (p_slow_period params))
                 (p_signal_period params) + 10) = false) as ->
    by (apply Z.ltb_ge; lia).
  rewrite Hsig by lia.
  set (cur := emitted (bt_macd st) (bt_signal_line st) (len_data - 1)).
  assert (Hprev : ∀ v, v ≠ 0 → cur = v →
    feq (if decide (1 < len_data)%nat
         then bt_signals st !!! (len_data - 2)%nat else of_Z 0) (of_Z v)
    = false).
  { intros v Hv Hcur. case_decide as Hl.
    - rewrite Hsig by lia. rewrite feq_of_Z.
      apply bool_decide_eq_false_2. intros Hp.
      pose proof (emitted_no_repeat (bt_macd st) (bt_signal_line st)
                    (len_data - 2)) as Hrep.
      replace (S (len_data - 2)) with (len_data - 1)%nat in Hrep by lia.
      fold cur in Hrep. apply Hrep; congruence.
    - rewrite feq_of_Z. apply bool_decide_eq_false_2. congruence. }
  simpl isna. cbv iota. rewrite !feq_of_Z. cbv zeta.
  destruct (decide (cur = 1)) as [E1|N1].
  - rewrite bool_decide_eq_true_2 by done.
    rewrite (Hprev 1) by done. simpl.
    by destruct (has_position b).
  - rewrite bool_decide_eq_false_2 by done. simpl.
    destruct (decide (cur = -1)) as [E2|N2].
    + rewrite bool_decide_eq_true_2 by done.
      rewrite (Hprev (-1)) by done. simpl.
      by destruct (has_position b).
    + by rewrite bool_decide_eq_false_2 by done.
Qed.
End BacktestInitFacts.

Lemma init_signals_witness :
  init talib.MACD (mkBacktestParams 3 7 3 (4 # 5))
       (ohlcv_frame closes_touch) ∅ = Ok (init_out closes_touch)
  ∧ length (bt_signals (init_out closes_touch).1) = 12%nat.
Proof.
  split; [vm_compute; reflexivity|].
  destruct (init_signals talib.MACD (mkBacktestParams 3 7 3 (4 # 5))
              (ohlcv_frame closes_touch) ∅
              (init_out closes_touch).1 (init_out closes_touch).2)
    as (_ & _ & _ & _ & H & _).
  - vm_compute. reflexivity.
  - exact H.
Defined.

Lemma next_on_generated_signals_witness :
  init talib.MACD (mkBacktestParams 3 7 3 (4 # 5))
       (ohlcv_frame closes_long) ∅ = Ok (init_out closes_long)
  ∧ next (bt_params (init_out closes_long).1)
         (bt_signals (init_out closes_long).1) 18 (mkBroker 100 [] [])
    = mkBroker 100 [] [BuyOrder (4 # 5)].
Proof.
  split; [vm_compute; reflexivity|].
  rewrite (next_on_generated_signals talib.MACD
             (mkBacktestParams 3 7 3 (4 # 5)) (ohlcv_frame closes_long) ∅
             (init_out closes_long).1 (init_out closes_long).2 18
             (mkBroker 100 [] [])).
  - vm_compute. reflexivity.
  - vm_compute. reflexivity.
  - vm_compute. split; apply Nat.leb_le; reflexivity.
  - vm_compute. discriminate.
Defined.

(** ** More on [_prepare_data] *)

Lemma filter_all {A} (P : A → Prop) `{!∀ x, Decision (P x)} (l : list A) :
  Forall P l → filter P l = l.
Proof.
  induction 1 as [|x l Hx _ IH]; [done|].
  rewrite filter_cons, decide_True by done. by rewrite IH.
Qed.

Lemma filter_none {A} (P : A → Prop) `{!∀ x, Decision (P x)} (l : list A) :
  Forall (λ x, ¬ P x) l → filter P l = [].
Proof.
  induction 1 as [|x l Hx _ IH]; [done|].
  by rewrite filter_cons, decide_False by done.
Qed.

Lemma elem_of_complete_rows df i :
  i ∈ complete_rows df ↔
  (i < length (df_index df))%nat
  ∧ map_Forall (λ _ c, col_notna i c = true) (df_columns df).
Proof.
  unfold complete_rows. rewrite list_elem_of_filter, elem_of_seq.
  split; intros [? ?]; split; try done; lia.
Qed.

Lemma NoDup_complete_rows df : NoDup (complete_rows df).
Proof. unfold complete_rows. apply NoDup_filter, NoDup_seq. Qed.

Lemma length_col_take rows c : col_length (col_take rows c) = length rows.
Proof. destruct c; simpl; by rewrite length_fmap. Qed.

Lemma take_rows_wf rows df : frame_wf (take_rows rows df).
Proof.
  intros name c. unfold take_rows. simpl. rewrite lookup_fmap.
  destruct (df_columns df !! name) as [c0|]; simpl; [|done].
  intros [= <-]. by rewrite length_col_take, length_fmap.
Qed.

Lemma take_rows_notna rows df :
  (∀ i, i ∈ rows → i ∈ complete_rows df) →
  frame_notna (take_rows rows df).
Proof.
  intros Hrows name xs. unfold take_rows. simpl. rewrite lookup_fmap.
  destruct (df_columns df !! name) as [[ys|ys]|] eqn:E; simpl; try done.
  intros [= <-]. apply Forall_fmap, Forall_forall. intros i Hi.
  apply Hrows, elem_of_complete_rows in Hi as [_ Hi].
  specialize (Hi name _ E). simpl in Hi. unfold defined. simpl.
  by apply negb_true_iff.
Qed.

Lemma take_rows_all df :
  frame_wf df → take_rows (seq 0 (length (df_index df))) df = df.
Proof.
  intros Hwf. destruct df as [idx cols]. unfold take_rows. simpl in *.
  f_equal; [apply fmap_lookup_total_seq|].
  apply map_eq. intros name. rewrite lookup_fmap.
  destruct (cols !! name) as [c|] eqn:E; simpl; [|done].
  f_equal. specialize (Hwf name c E). simpl in Hwf.
  destruct c as [xs|xs]; simpl in *; f_equal; rewrite <- Hwf;
    apply fmap_lookup_total_seq.
Qed.

Lemma complete_rows_all df :
  frame_wf df → frame_notna df →
  complete_rows df = seq 0 (length (df_index df)).
Proof.
  intros Hwf Hna. unfold complete_rows.
  apply filter_all. apply Forall_forall. intros i Hi.
  apply elem_of_seq in Hi. intros name c Hc.
  destruct c as [xs|xs]; [|done]. simpl.
  specialize (Hwf name _ Hc). simpl in Hwf.
  specialize (Hna name xs Hc).
  destruct (lookup_lt_is_Some_2 xs i) as [x Hx]; [lia|].
  rewrite (list_lookup_total_correct _ _ _ Hx).
  rewrite Forall_lookup in Hna. apply negb_true_iff. by apply (Hna i x).
Qed.

#[local] Instance label_le_trans : Transitive label_le.
Proof. intros [a ?] [b ?] [c ?]. unfold label_le. simpl. lia. Qed.

#[local] Instance label_le_total : Total label_le.
Proof. intros [a ?] [b ?]. unfold label_le. simpl. lia. Qed.

Lemma StronglySorted_lt_NoDup (idx : list Z) :
  StronglySorted Z.lt idx → NoDup idx.
Proof.
  induction 1 as [|x l _ IH Hx]; constructor; [|done].
  intros Hin. rewrite Forall_forall in Hx. specialize (Hx x Hin). lia.
Qed.

Lemma Sorted_zip_seq (idx : list Z) (a : nat) :
  StronglySorted Z.lt idx →
  Sorted label_le (zip idx (seq a (length idx))).
Proof.
  intros H. revert a. induction H as [|x l Hl IH Hx]; intros a;
    [constructor|].
  simpl. constructor; [apply IH|].
  destruct l as [|y l]; simpl; constructor.
  unfold label_le. simpl. inversion Hx; subst. lia.
Qed.

Lemma sort_index_sorted df :
  frame_wf df → StronglySorted Z.lt (df_index df) → sort_index df = df.
Proof.
  intros Hwf Hs. unfold sort_index.
  set (pairs := zip (df_index df) (seq 0 (length (df_index df)))).
  assert (E : merge_sort label_le pairs = pairs).
  { apply (Sorted_unique_strong label_le).
    - intros [l1 p1] [l2 p2] H1 H2 Hle1 Hle2.
      rewrite merge_sort_Permutation in H1.
      unfold label_le in *. simpl in *.
      assert (l1 = l2) as -> by lia. f_equal.
      apply list_elem_of_lookup in H1 as [i1 H1].
      apply list_elem_of_lookup in H2 as [i2 H2].
      apply lookup_zip_with_Some in H1 as (? & ? & [= <- <-] & Ha & Hb).
      apply lookup_zip_with_Some in H2 as (? & ? & [= <- <-] & Hc & Hd).
      apply lookup_seq in Hb as [-> _]. apply lookup_seq in Hd as [-> _].
      simpl. eapply NoDup_lookup; eauto using StronglySorted_lt_NoDup.
    - apply Sorted_merge_sort, _.
    - by apply Sorted_zip_seq.
    - apply merge_sort_Permutation. }
  rewrite E. unfold pairs. rewrite snd_zip by (by rewrite length_seq).
  by apply take_rows_all.
Qed.

(** What a successful [_prepare_data] returns. *)
Lemma prepare_data_Ok self r :
  _prepare_data self = Ok r →
  (∀ col, col ∈ required_columns →
     is_Some (df_columns (data self) !! col))
  ∧ ∃ rows,
      rows ≡ₚ complete_rows (data self)
      ∧ data r = take_rows rows (data self)
      ∧ Sorted Z.le (df_index (data r))
      ∧ df_index (data r) ≠ [].
Proof.
  unfold _prepare_data.
  pose proof (required_columns_check (data self)) as Hreq.
  destruct (filter _ required_columns) as [|col cols]; [|done].
  destruct (sort_index_spec (dropna (data self)))
    as (rows & Hp & Hs & Hsorted).
  unfold dropna in *. rewrite take_rows_index, length_fmap in Hp.
  rewrite take_rows_compose in Hs.
  2:{ apply Forall_forall. intros j Hj. rewrite Hp in Hj.
      by apply elem_of_seq in Hj as [_ ?]. }
  destruct (df_index (sort_index _)) as [|l ls] eqn:E; [done|].
  intros [= <-]. split; [done|].
  eexists. split; [|split; [exact Hs|]].
  - rewrite Hp. by rewrite fmap_lookup_total_seq.
  - cbn [data]. rewrite E. split; [done|discriminate].
Qed.

Lemma required_columns_present df :
  (∀ col, col ∈ required_columns → is_Some (df_columns df !! col)) →
  filter (λ col, df_columns df !! col = None) required_columns = [].
Proof.
  intros Hreq. apply filter_none. apply Forall_forall. intros col Hcol Hnone.
  destruct (Hreq col Hcol) as [c Hc]. congruence.
Qed.

Lemma sort_dropna_clean df :
  frame_wf df → frame_notna df → StronglySorted Z.lt (df_index df) →
  sort_index (dropna df) = df.
Proof.
  intros Hwf Hna Hs. unfold dropna.
  rewrite complete_rows_all, take_rows_all by done.
  by rewrite sort_index_sorted.
Qed.

(** X8.  The frame that [_prepare_data] returns has one entry per label in
    every column and no missing value in any float column. *)
Theorem prepare_data_clean self r :
  _prepare_data self = Ok r →
  frame_wf (data r) ∧ frame_notna (data r).
Proof.
  intros H. apply prepare_data_Ok in H as (_ & rows & Hp & -> & _).
  split; [apply take_rows_wf|].
  apply take_rows_notna. intros i Hi. by rewrite <- Hp.
Qed.

(** X9.  A frame of at least one row that has the five required columns,
    no missing value and strictly increasing labels is returned as it is. *)
Theorem prepare_data_identity self :
  (∀ col, col ∈ required_columns →
     is_Some (df_columns (data self) !! col)) →
  frame_wf (data self) →
  frame_notna (data self) →
  StronglySorted Z.lt (df_index (data self)) →
  df_index (data self) ≠ [] →
  _prepare_data self = Ok self.
Proof.
  intros Hreq Hwf Hna Hs Hne. unfold _prepare_data.
  rewrite required_columns_present by done.
  rewrite sort_dropna_clean by done.
  destruct (df_index (data self)); [done|]. by destruct self.
Qed.

(** X10.  Preparing a prepared frame changes nothing, for data with
    distinct row labels. *)
Theorem prepare_data_idempotent self r :
  NoDup (df_index (data self)) →
  _prepare_data self = Ok r →
  _prepare_data r = Ok r.
Proof.
  intros Hnd H.
  apply prepare_data_Ok in H as (Hreq & rows & Hp & Hr & Hsorted & Hne).
  assert (Hwf : frame_wf (data r)) by (rewrite Hr; apply take_rows_wf).
  assert (Hna : frame_notna (data r)).
  { rewrite Hr. apply take_rows_notna. intros i Hi. by rewrite <- Hp. }
  unfold _prepare_data.
  rewrite required_columns_present.
  2:{ intros col Hcol. rewrite Hr. unfold take_rows. simpl.
      rewrite lookup_fmap. destruct (Hreq col Hcol) as [c ->]. by eexists. }
  rewrite sort_dropna_clean; [| done | done |].
  - destruct (df_index (data r)); [done|]. by destruct r.
  - assert (Hnd' : NoDup (df_index (data r))).
    { rewrite Hr, take_rows_index. apply NoDup_fmap_2_strong.
      - intros i j Hi Hj Heq.
        rewrite Hp in Hi, Hj.
        apply elem_of_complete_rows in Hi as [Hi _].
        apply elem_of_complete_rows in Hj as [Hj _].
        by apply (NoDup_lookup_total_inj (df_index (data self))).
      - rewrite Hp. apply NoDup_complete_rows. }
    apply Sorted_StronglySorted in Hsorted; [|intros ???; lia].
    clear -Hsorted Hnd'.
    induction Hsorted as [|x l Hl IH Hx]; [constructor|].
    apply NoDup_cons in Hnd' as [Hx' Hnd']. constructor; [by apply IH|].
    rewrite Forall_forall in *. intros y Hy.
    specialize (Hx y Hy). assert (x ≠ y) by (by intros ->). lia.
Qed.

Lemma prepare_data_clean_witness :
  ∃ r, _prepare_data (mkBacktestRunner unsorted_frame) = Ok r
       ∧ frame_wf (data r) ∧ frame_notna (data r).
Proof.
  eexists. split; [vm_compute; reflexivity|].
  apply (prepare_data_clean (mkBacktestRunner unsorted_frame)).
  vm_compute. reflexivity.
Defined.

Lemma clean_frame_facts :
  (∀ col, col ∈ required_columns →
     is_Some (df_columns clean_frame !! col))
  ∧ frame_wf clean_frame ∧ frame_notna clean_frame.
Proof.
  assert (Hcols : ∀ name c, df_columns clean_frame !! name = Some c →
            c = FloatCol [of_Z 7; of_Z 9; of_Z 5]).
  { intros name c. unfold clean_frame, required_columns. simpl.
    rewrite !lookup_insert. repeat case_decide; try congruence.
    by rewrite lookup_empty. }
  split; [|split].
  - intros col Hcol. unfold required_columns in Hcol.
    repeat (apply elem_of_cons in Hcol as [->|Hcol]);
      [by eexists..|by apply elem_of_nil in Hcol].
  - intros name c Hc. by rewrite (Hcols _ _ Hc).
  - intros name xs Hc. apply Hcols in Hc as [= ->].
    repeat constructor.
Qed.

Lemma prepare_data_identity_witness :
  _prepare_data (mkBacktestRunner clean_frame)
  = Ok (mkBacktestRunner clean_frame).
Proof.
  destruct clean_frame_facts as (H1 & H2 & H3).
  apply prepare_data_identity; try assumption.
  - simpl. repeat constructor; lia.
  - discriminate.
Defined.

Lemma prepare_data_idempotent_witness :
  ∃ r, _prepare_data (mkBacktestRunner unsorted_frame) = Ok r
       ∧ _prepare_data r = Ok r.
Proof.
  eexists. split; [vm_compute; reflexivity|].
  apply (prepare_data_idempotent (mkBacktestRunner unsorted_frame)).
  - refine (bool_decide_unpack _ _). vm_compute. exact I.
  - vm_compute. reflexivity.
Defined.

(** ** The trading bot *)

Lemma update_position_frame api self :
  bot_symbol (update_position api self) = bot_symbol self
  ∧ bot_last_signal (update_position api self) = bot_last_signal self
  ∧ trade_history (update_position api self) = trade_history self.
Proof. unfold update_position. by destruct (get_positions api). Qed.

(** X13.  One call of [execute_signal] sends at most one order.  It sends a
    buy only for signal 1 while the position just read from the client is
    not positive, and a sell only for signal -1 while that position is
    positive; the sell is for the whole position. *)
Theorem execute_signal_orders api now self signal price :
  let pos := bot_position (update_position api self) in
  match (execute_signal api now self signal price).2 with
  | [] => True
  | [rq] =>
      rq_symbol rq = bot_symbol self
      ∧ ((rq_side rq = "buy" ∧ signal = 1 ∧ fle pos (of_Z 0) = true
          ∧ ∃ qty, rq_qty rq = inject_Z qty ∧ 0 < qty)
         ∨ (rq_side rq = "sell" ∧ signal = -1 ∧ fgt pos (of_Z 0) = true
            ∧ pos = Some (rq_qty rq)))
  | _ => False
  end.
Proof.
  simpl. unfold execute_signal.
  destruct (update_position_frame api self) as (Hsym & _ & _).
  set (bot := update_position api self) in *.
  destruct (Z.eqb_spec signal 1) as [->|N1]; simpl.
  - destruct (fle (bot_position bot) (of_Z 0)) eqn:Ef; simpl; [|done].
    destruct (get_account_info api) as [bp|]; [|done].
    destruct (py_int _) as [qty|]; [|done].
    destruct (0 <? qty) eqn:Eq; [|done].
    apply Z.ltb_lt in Eq.
    destruct (place_order api _ _ _); simpl;
      (split; [done|]); left; (split; [done|]); (split; [done|]);
      (split; [done|]); by exists qty.
  - destruct (Z.eqb_spec signal (-1)) as [->|N2]; simpl; [|done].
    destruct (bot_position bot) as [q|] eqn:Ep; simpl; [|done].
    destruct (negb (Qle_bool q (inject_Z 0))) eqn:Eg; [|done].
    assert (Hq : (0 < q)%Q) by (by apply (flt_Some 0 q)).
    assert (Habs : Qabs q = q).
    { destruct q as [n d]. unfold Qabs. f_equal.
      unfold Qlt in Hq. simpl in Hq. lia. }
    rewrite Habs.
    destruct (place_order api _ _ _); simpl;
      (split; [done|]); right; (split; [done|]); (split; [done|]);
      (split; done).
Qed.

(** The ways one call of [execute_signal] can end. *)
Lemma execute_signal_cases api now self signal price :
  let bot := update_position api self in
  let out := execute_signal api now self signal price in
  out = (bot, [])
  ∨ out = (with_last_signal bot signal, [])
  ∨ ∃ qty side action,
      (side = "buy" ∧ action = "BUY" ∨ side = "sell" ∧ action = "SELL")
      ∧ (0 < qty)%Q
      ∧ let rq := mkOrderRequest (bot_symbol bot) qty side in
        (place_order api (bot_symbol bot) qty side = None
         ∧ out = (bot, [rq]))
        ∨ (∃ order_id,
             place_order api (bot_symbol bot) qty side = Some order_id
             ∧ out = (with_last_signal
                        (append_trade bot
                           (mkTradeRecord now action (bot_symbol bot) qty
                              order_id price))
                        signal, [rq])).
Proof.
  simpl. unfold execute_signal.
  set (bot := update_position api self).
  destruct ((signal =? 1) && fle (bot_position bot) (of_Z 0)).
  - destruct (get_account_info api) as [bp|]; [|by left].
    destruct (py_int _) as [qty|]; [|by left].
    destruct (0 <? qty) eqn:Eq; [|by right; left].
    apply Z.ltb_lt in Eq. right; right.
    exists (inject_Z qty), "buy", "BUY".
    split; [by left|]. split.
    { change 0%Q with (inject_Z 0). rewrite <- Zlt_Qlt. done. }
    destruct (place_order api _ _ _) as [id|] eqn:E;
      [right; by exists id|by left].
  - destruct ((signal =? -1) && fgt (bot_position bot) (of_Z 0)) eqn:Es;
      [|by right; left].
    apply andb_true_iff in Es as [_ Es].
    destruct (bot_position bot) as [q|] eqn:Ep; [|done]. simpl.
    assert (Hq : (0 < q)%Q) by (by apply (flt_Some 0 q)).
    assert (Habs : Qabs q = q).
    { destruct q as [n d]. unfold Qabs. f_equal.
      unfold Qlt in Hq. simpl in Hq. lia. }
    rewrite Habs. right; right. exists q, "sell", "SELL".
    split; [by right|]. split; [done|].
    destruct (place_order api _ _ _) as [id|] eqn:E;
      [right; by exists id|by left].
Qed.

(** X15.  An entry is appended to the trade history exactly when the client
    accepts the order that was sent; it carries the order's identifier,
    quantity and the clock reading, and the signal becomes the last signal.
    When the client rejects the order nothing is recorded: the history and
    the last signal stay as they were.  A call that sends no order leaves the
    history as it was. *)
Theorem execute_signal_bookkeeping api now self signal price :
  let out := execute_signal api now self signal price in
  bot_symbol out.1 = bot_symbol self
  ∧ match out.2 with
    | [rq] =>
        match place_order api (rq_symbol rq) (rq_qty rq) (rq_side rq) with
        | Some order_id =>
            ∃ t, trade_history out.1 = trade_history self ++ [t]
                 ∧ tr_order_id t = order_id
                 ∧ tr_qty t = rq_qty rq
                 ∧ tr_timestamp t = now
                 ∧ trade_ok (bot_symbol self) t
                 ∧ bot_last_signal out.1 = Some signal
        | None =>
            trade_history out.1 = trade_history self
            ∧ bot_last_signal out.1 = bot_last_signal self
        end
    | _ => trade_history out.1 = trade_history self
    end.
Proof.
  destruct (update_position_frame api self) as (Hsym & Hlast & Hhist).
  destruct (execute_signal_cases api now self signal price)
    as [E|[E|(qty & side & action & Hside & Hq & [[Hp E]|(id & Hp & E)])]];
    simpl in E |- *; rewrite E; simpl.
  - done.
  - done.
  - rewrite Hp. done.
  - rewrite Hp. split; [done|]. eexists. split; [by rewrite Hhist|].
    simpl. repeat split; try done.
    destruct Hside as [[_ ->]|[_ ->]]; [by left|by right].
Qed.

Lemma bot_session_snoc calls c self :
  bot_session (calls ++ [c]) self
  = (execute_signal c.1.1.1 c.1.1.2 (bot_session calls self) c.1.2 c.2).1.
Proof. unfold bot_session. by rewrite foldl_app. Qed.

Lemma bot_session_history calls symbol :
  bot_symbol (bot_session calls (new_bot symbol)) = symbol
  ∧ Forall (trade_ok symbol)
      (trade_history (bot_session calls (new_bot symbol))).
Proof.
  induction calls as [|c calls IH] using rev_ind; [by split|].
  rewrite bot_session_snoc. destruct IH as [IHs IHh].
  set (bot := bot_session calls (new_bot symbol)) in *.
  destruct (update_position_frame c.1.1.1 bot) as (Hsym & _ & Hhist).
  destruct (execute_signal_cases c.1.1.1 c.1.1.2 bot c.1.2 c.2)
    as [E|[E|(qty & side & action & Hside & Hq & [[_ E]|(id & _ & E)])]];
    simpl in E; rewrite E; simpl; rewrite ?Hsym, ?Hhist; try done.
  split; [done|]. apply Forall_app. split; [done|].
  constructor; [|done]. repeat split; simpl; try congruence.
  destruct Hside as [[_ ->]|[_ ->]]; [by left|by right].
Qed.

Lemma count_buy_sell symbol (l : list TradeRecord) :
  Forall (trade_ok symbol) l →
  length l
  = (length (filter (λ t, tr_action t = "BUY") l)
     + length (filter (λ t, tr_action t = "SELL") l))%nat.
Proof.
  induction 1 as [|t l (_ & [Ha|Ha] & _) _ IH]; [done|..];
    rewrite !filter_cons, Ha; simpl; rewrite IH; lia.
Qed.

(** X16.  In a session that starts from a new bot, whatever the client
    answers, every entry of the trade history is a BUY or a SELL of a
    positive quantity in the bot's symbol, and the summary adds up: the total
    number of trades is the number of buys plus the number of sells. *)
Theorem trade_summary_adds_up calls symbol :
  let bot := bot_session calls (new_bot symbol) in
  Forall (trade_ok symbol) (trade_history bot)
  ∧ get_trade_summary bot !! "total_trades"
    = Some (Z.of_nat (length (trade_history bot)))
  ∧ (trade_history bot ≠ [] →
     ∃ buys sells,
       get_trade_summary bot !! "buy_trades" = Some buys
       ∧ get_trade_summary bot !! "sell_trades" = Some sells
       ∧ Z.of_nat (length (trade_history bot)) = buys + sells).
Proof.
  simpl. destruct (bot_session_history calls symbol) as [_ Hall].
  split; [done|]. unfold get_trade_summary.
  pose proof (count_buy_sell symbol _ Hall) as Hcount.
  destruct (trade_history _) as [|t l] eqn:E.
  - split; [by simplify_map_eq|done].
  - split; [by simplify_map_eq|]. intros _.
    eexists _, _. split; [by simplify_map_eq|].
    split; [by simplify_map_eq|]. lia.
Qed.
